(** * CustomHashTable: an open-addressing hash table with linear probing

    Shallow embedding of [src/ConsoleApplication2.cpp] (class template
    [CustomHashTable<Key, Value>]) and proofs about it.

    Modelling choices.
    - [std::vector<Entry*> table] is a [list (option Entry)]: [None] is
      [nullptr], [Some e] a pointer to a heap [Entry].  Every [Entry] is
      pointed to by one slot only (a fresh [new Entry()] per empty slot, and
      [resize] moves each pointer into one slot of the new vector before the
      old vector is dropped), so the value model loses no aliasing.
    - [size_t] is [nat].  [table_size * 2] and [item_count * 2] do not wrap in
      an execution that got this far: a [std::vector<Entry*>] holds fewer
      than 2^61 pointers.  [item_count--] is only executed on a live slot,
      where the count is positive in every state that satisfies the
      invariant (lemma [remove_no_underflow]).
    - Undefined behaviour is explicit: [x % 0] is [Fault DivByZero], an index
      outside the vector is [Fault OutOfBounds].
    - The probing loops of [insert], [find] and [remove] stop when the index
      is back at [original_index], so they are run with [table_size] units
      of fuel (lemma [probe_total]: in a well-formed state this is never
      exhausted).  The loop of [resize] has no such test and is run with
      [new_size] units of fuel; it runs out only when the new vector has no
      null slot on the probe cycle, in which case the source loops for ever
      (lemma [resize_probe_diverges]).  The recursion of [insert] takes its
      depth as an argument.
    - The two mutexes are not modelled: all operations run one after the
      other.  (In the source the recursive call of [insert] locks
      [access_mutex] again while the caller holds it.) *)

From stdpp Require Import base decidable option list numbers strings.

(** ** Results of partial code *)

Inductive fault := DivByZero | OutOfBounds.

Inductive res (A : Type) : Type :=
  | Ret (a : A)
  | Fault (f : fault)
  | Diverge.
Arguments Ret {A} a.
Arguments Fault {A} f.
Arguments Diverge {A}.

Definition res_bind {A B : Type} (f : A → res B) (m : res A) : res B :=
  match m with
  | Ret a => f a
  | Fault e => Fault e
  | Diverge => Diverge
  end.

#[global] Instance res_mbind : MBind res := @res_bind.

Module HashTable.
Section CustomHashTable.

(** Template parameters [Key] and [Value]; [operator==] on keys is
    decidable equality, [hashf] is [std::hash<Key>{}]. *)
Context {K V : Type} `{EqDecision K}.
Variable hashf : K → nat.

(** The compile-time facts [std::is_same<Key, int*>::value] and
    [std::is_same<Key, char*>::value], and the test [key == nullptr] of a
    pointer-typed key. *)
Variable Key_is_int_ptr Key_is_char_ptr : bool.
Variable is_nullptr : K → bool.

Record Entry : Type := mkEntry { key : K; value : V; in_use : bool }.

(** An element of [std::vector<Entry*>]. *)
Definition slot : Type := option Entry.

Record CustomHashTable : Type := mkTable {
  table : list slot;
  table_size : nat;
  item_count : nat
}.

(** [table[index]] *)
Definition at_ (tbl : list slot) (index : nat) : res slot :=
  match tbl !! index with
  | Some s => Ret s
  | None => Fault OutOfBounds
  end.

(** [x % n] *)
Definition modulo (x n : nat) : res nat :=
  if n =? 0 then Fault DivByZero else Ret (x mod n).

(** [size_t hash(const Key& key) const] *)
Definition hash (t : CustomHashTable) (k : K) : res nat :=
  modulo (hashf k) (table_size t).

(** [while (new_table[index]) index = (index + 1) % new_size;] *)
Fixpoint resize_probe (fuel : nat) (new_table : list slot) (new_size index : nat)
    : res nat :=
  match fuel with
  | 0 => Diverge
  | S fuel' =>
      s ← at_ new_table index;
      match s with
      | Some _ =>
          index' ← modulo (index + 1) new_size;
          resize_probe fuel' new_table new_size index'
      | None => Ret index
      end
  end.

(** One iteration of [for (auto& entry : table)] in [resize]. *)
Definition resize_step (new_size : nat) (acc : res (list slot)) (entry : slot)
    : res (list slot) :=
  new_table ← acc;
  match entry with
  | Some e =>
      if in_use e then
        index ← modulo (hashf (key e)) new_size;
        index ← resize_probe new_size new_table new_size index;
        Ret (<[index := Some e]> new_table)
      else Ret new_table
  | None => Ret new_table
  end.

(** [void resize()] *)
Definition resize (t : CustomHashTable) : res CustomHashTable :=
  if table_size t <? item_count t * 2 then
    let new_size := table_size t * 2 in
    new_table ← foldl (resize_step new_size) (Ret (replicate new_size None)) (table t);
    Ret {| table := new_table; table_size := new_size; item_count := item_count t |}
  else Ret t.

(** [bool check_key(const Key& key) const] *)
Definition check_key (k : K) : bool :=
  if Key_is_int_ptr || Key_is_char_ptr then
    if is_nullptr k then false else true
  else true.

(** [CustomHashTable(size_t initial_size = 16)] *)
Definition new (initial_size : nat) : CustomHashTable :=
  {| table := replicate initial_size None;
     table_size := initial_size;
     item_count := 0 |}.

(** [table[index]->in_use.load() && table[index]->key == key] *)
Definition matches (k : K) (e : Entry) : bool :=
  in_use e && bool_decide (key e = k).

(** The three ways out of the [while] loop of [insert]: the value of a
    live slot with the key was overwritten, the index came back to
    [original_index], or the loop condition failed at a null slot. *)
Inductive insert_exit : Type :=
  | Overwritten (t : CustomHashTable)
  | Wrapped
  | NullSlot (index : nat).

Fixpoint insert_loop (fuel : nat) (t : CustomHashTable) (k : K) (v : V)
    (original_index index : nat) : res insert_exit :=
  match fuel with
  | 0 => Diverge
  | S fuel' =>
      s ← at_ (table t) index;
      match s with
      | Some e =>
          if matches k e then
            Ret (Overwritten
                   {| table := <[index := Some (mkEntry (key e) v (in_use e))]> (table t);
                      table_size := table_size t;
                      item_count := item_count t |})
          else
            index' ← modulo (index + 1) (table_size t);
            if index' =? original_index then Ret Wrapped
            else insert_loop fuel' t k v original_index index'
      | None => Ret (NullSlot index)
      end
  end.

(** [bool insert(const Key& key, const Value& value)]; [depth] bounds the
    nesting of the recursive call. *)
Fixpoint insert (depth : nat) (k : K) (v : V) (t : CustomHashTable)
    : res (bool * CustomHashTable) :=
  if negb (check_key k) then Ret (false, t)
  else
    t1 ← resize t;
    index ← hash t1 k;
    exit ← insert_loop (table_size t1) t1 k v index index;
    match exit with
    | Overwritten t2 => Ret (true, t2)
    | Wrapped =>
        t2 ← resize t1;
        match depth with
        | 0 => Diverge
        | S depth' => insert depth' k v t2
        end
    | NullSlot index =>
        (* the slot is null here: a new Entry gets key, value and in_use *)
        _ ← at_ (table t1) index;
        Ret (true,
             {| table := <[index := Some (mkEntry k v true)]> (table t1);
                table_size := table_size t1;
                item_count := S (item_count t1) |})
    end.

Fixpoint find_loop (fuel : nat) (t : CustomHashTable) (k : K)
    (original_index index : nat) : res (option V) :=
  match fuel with
  | 0 => Diverge
  | S fuel' =>
      s ← at_ (table t) index;
      match s with
      | Some e =>
          if matches k e then Ret (Some (value e))
          else
            index' ← modulo (index + 1) (table_size t);
            if index' =? original_index then Ret None
            else find_loop fuel' t k original_index index'
      | None => Ret None
      end
  end.

(** [bool find(const Key& key, Value& result) const]: [Some v] is [true]
    with [result = v], [None] is [false].  The table is returned as the
    method leaves it. *)
Definition find (k : K) (t : CustomHashTable) : res (option V * CustomHashTable) :=
  if negb (check_key k) then Ret (None, t)
  else
    index ← hash t k;
    r ← find_loop (table_size t) t k index index;
    Ret (r, t).

Fixpoint remove_loop (fuel : nat) (t : CustomHashTable) (k : K)
    (original_index index : nat) : res (bool * CustomHashTable) :=
  match fuel with
  | 0 => Diverge
  | S fuel' =>
      s ← at_ (table t) index;
      match s with
      | Some e =>
          if matches k e then
            Ret (true,
                 {| table := <[index := Some (mkEntry (key e) (value e) false)]> (table t);
                    table_size := table_size t;
                    item_count := pred (item_count t) |})
          else
            index' ← modulo (index + 1) (table_size t);
            if index' =? original_index then Ret (false, t)
            else remove_loop fuel' t k original_index index'
      | None => Ret (false, t)
      end
  end.

(** [bool remove(const Key& key)] *)
Definition remove (k : K) (t : CustomHashTable) : res (bool * CustomHashTable) :=
  if negb (check_key k) then Ret (false, t)
  else
    index ← hash t k;
    remove_loop (table_size t) t k index index.

(** [size_t size() const] *)
Definition size (t : CustomHashTable) : nat * CustomHashTable := (item_count t, t).


(** ** Sequences of calls *)

Inductive op : Type :=
  | Insert (k : K) (v : V)
  | Find (k : K)
  | Remove (k : K)
  | Size.

Definition step (depth : nat) (o : op) (t : CustomHashTable) : res CustomHashTable :=
  match o with
  | Insert k v => r ← insert depth k v t; Ret (snd r)
  | Find k => r ← find k t; Ret (snd r)
  | Remove k => r ← remove k t; Ret (snd r)
  | Size => Ret (snd (size t))
  end.

Fixpoint run (depth : nat) (ops : list op) (t : CustomHashTable) : res CustomHashTable :=
  match ops with
  | [] => Ret t
  | o :: ops' => t' ← step depth o t; run depth ops' t'
  end.

(** The states a caller can get: constructed with a positive capacity, then
    any calls that returned. *)
Inductive reachable : CustomHashTable → Prop :=
  | reachable_new (initial_size : nat) :
      0 < initial_size → reachable (new initial_size)
  | reachable_step (depth : nat) (o : op) (t t' : CustomHashTable) :
      reachable t → step depth o t = Ret t' → reachable t'.

(** [touches k o]: the call writes or removes key [k]. *)
Definition touches (k : K) (o : op) : Prop :=
  match o with
  | Insert k' _ => k' = k
  | Remove k' => k' = k
  | _ => False
  end.

Definition inserts (k : K) (o : op) : Prop :=
  match o with
  | Insert k' _ => k' = k
  | _ => False
  end.

(** ** The state of a slot, and the invariants of the table *)

Definition is_live (s : slot) : bool :=
  match s with Some e => in_use e | None => false end.

Definition is_tombstone (s : slot) : bool :=
  match s with Some e => negb (in_use e) | None => false end.

Definition is_occupied (s : slot) : bool :=
  match s with Some _ => true | None => false end.

Definition count (p : slot → bool) (tbl : list slot) : nat :=
  length (filter (λ s, p s = true) tbl).

Definition live_at (tbl : list slot) (i : nat) (e : Entry) : Prop :=
  tbl !! i = Some (Some e) ∧ in_use e = true.

(** The index of the [d]-th probe of a key whose hash is [h]. *)
Definition probe_index (n h d : nat) : nat := (h + d) mod n.

(** The first [d] probes from hash [h] meet no null slot. *)
Definition chain (tbl : list slot) (n h d : nat) : Prop :=
  ∀ d', d' < d → ∃ e, tbl !! probe_index n h d' = Some (Some e).

(** Slot [i] is met by probing for [k] before any null slot. *)
Definition reach (tbl : list slot) (n : nat) (k : K) (i : nat) : Prop :=
  ∃ d, d < n ∧ probe_index n (hashf k) d = i ∧ chain tbl n (hashf k) d.

Definition well_formed (t : CustomHashTable) : Prop :=
  length (table t) = table_size t ∧ 0 < table_size t.

Record Inv (t : CustomHashTable) : Prop := mkInv {
  inv_wf : well_formed t;
  inv_count : item_count t = count is_live (table t);
  inv_reach : ∀ i e, live_at (table t) i e → reach (table t) (table_size t) (key e) i
}.

Definition unique_keys (tbl : list slot) : Prop :=
  ∀ i j e1 e2, live_at tbl i e1 → live_at tbl j e2 → key e1 = key e2 → i = j.

Definition valid_keys (tbl : list slot) : Prop :=
  ∀ i e, live_at tbl i e → check_key (key e) = true.

Record Consistent (t : CustomHashTable) : Prop := mkConsistent {
  cons_inv : Inv t;
  cons_unique : unique_keys (table t);
  cons_valid : valid_keys (table t)
}.

(** The map the table stands for. *)
Definition maps_to (t : CustomHashTable) (k : K) (v : V) : Prop :=
  ∃ i e, live_at (table t) i e ∧ key e = k ∧ value e = v.

Definition has_key (t : CustomHashTable) (k : K) : Prop := ∃ v, maps_to t k v.

(** The outcome of probing for [k], as the three loops compute it: the
    first live slot with the key, the first null slot, or neither in a
    whole turn. *)
Inductive probe_result : Type :=
  | PFound (index : nat) (e : Entry)
  | PNull (index : nat)
  | PWrap.

Fixpoint probe (fuel : nat) (t : CustomHashTable) (k : K)
    (original_index index : nat) : res probe_result :=
  match fuel with
  | 0 => Diverge
  | S fuel' =>
      s ← at_ (table t) index;
      match s with
      | Some e =>
          if matches k e then Ret (PFound index e)
          else
            index' ← modulo (index + 1) (table_size t);
            if index' =? original_index then Ret PWrap
            else probe fuel' t k original_index index'
      | None => Ret (PNull index)
      end
  end.

(** ** The C++ standard library's [std::hash<int>] of libstdc++ and libc++
    on non-negative keys: the value itself. *)
Definition std_hash_int (k : nat) : nat := k.

(** [std::hash<T*>] of the same libraries: the address; the null pointer is
    the address 0. *)
Definition std_hash_ptr (addr : nat) : nat := addr.
Definition ptr_is_null (addr : nat) : bool := addr =? 0.

(** Probing for [k] walks past slot [i]: it is not null and does not match. *)
Definition blocked (tbl : list slot) (k : K) (i : nat) : Prop :=
  ∃ e, tbl !! i = Some (Some e) ∧ matches k e = false.

(** What a probe for [k] in [t] has established when it ends with [r]. *)
Definition probe_post (t : CustomHashTable) (k : K) (r : probe_result) : Prop :=
  let n := table_size t in
  let h := hashf k in
  match r with
  | PFound i e =>
      ∃ d, d < n ∧ i = probe_index n h d ∧ table t !! i = Some (Some e) ∧
           matches k e = true ∧
           ∀ d', d' < d → blocked (table t) k (probe_index n h d')
  | PNull i =>
      ∃ d, d < n ∧ i = probe_index n h d ∧ table t !! i = Some None ∧
           ∀ d', d' < d → blocked (table t) k (probe_index n h d')
  | PWrap => ∀ d', d' < n → blocked (table t) k (probe_index n h d')
  end.

(** The exits of the three loops, from the outcome of the probe. *)
Definition insert_exit_of (t : CustomHashTable) (v : V) (r : probe_result) : insert_exit :=
  match r with
  | PFound index e =>
      Overwritten {| table := <[index := Some (mkEntry (key e) v (in_use e))]> (table t);
                     table_size := table_size t;
                     item_count := item_count t |}
  | PNull index => NullSlot index
  | PWrap => Wrapped
  end.

Definition find_exit_of (r : probe_result) : option V :=
  match r with
  | PFound _ e => Some (value e)
  | _ => None
  end.

Definition remove_exit_of (t : CustomHashTable) (r : probe_result) : bool * CustomHashTable :=
  match r with
  | PFound index e =>
      (true, {| table := <[index := Some (mkEntry (key e) (value e) false)]> (table t);
                table_size := table_size t;
                item_count := pred (item_count t) |})
  | _ => (false, t)
  end.

(** What the loop of [resize] has built in the new vector [nt] of size [m]
    after the slots [l] of the old one: the live entries of [l], each at a
    slot that probing for its key reaches, and nothing else. *)
Record rehashed (l : list slot) (m : nat) (nt : list slot) : Prop := mkRehashed {
  rh_length : length nt = m;
  rh_count : count is_occupied nt = count is_live l;
  rh_from : ∀ j e, nt !! j = Some (Some e) → in_use e = true ∧ ∃ i, l !! i = Some (Some e);
  rh_to : ∀ i e, live_at l i e → ∃ j, nt !! j = Some (Some e);
  rh_reach : ∀ j e, nt !! j = Some (Some e) → reach nt m (key e) j;
  rh_unique : unique_keys l → unique_keys nt
}.

(** The table [insert] leaves when the probe does not wrap. *)
Definition insert_result (t1 : CustomHashTable) (k : K) (v : V) (r : probe_result)
    : CustomHashTable :=
  match r with
  | PFound i e =>
      {| table := <[i := Some (mkEntry (key e) v (in_use e))]> (table t1);
         table_size := table_size t1;
         item_count := item_count t1 |}
  | PNull i =>
      {| table := <[i := Some (mkEntry k v true)]> (table t1);
         table_size := table_size t1;
         item_count := S (item_count t1) |}
  | PWrap => t1
  end.

(** ** Further notions *)

(** No slot is a tombstone: no [remove] has succeeded since the table was
    last rebuilt. *)
Definition no_tombstone (tbl : list slot) : Prop :=
  ∀ j s, tbl !! j = Some s → is_tombstone s = false.

(** The calls [insert(k1, v1); insert(k2, v2); ...] *)
Definition insert_ops (kvs : list (K * V)) : list op :=
  (λ kv, Insert kv.1 kv.2) <$> kvs.

(** The value that the last [insert] of [k] in the sequence wrote, keys
    that [check_key] rejects apart. *)
Fixpoint last_write (kvs : list (K * V)) (k : K) : option V :=
  match kvs with
  | [] => None
  | (k', v) :: rest =>
      match last_write rest k with
      | Some v' => Some v'
      | None => if check_key k' && bool_decide (k' = k) then Some v else None
      end
  end.

(** The keys of the live slots, in the order of the slots. *)
Definition live_key (s : slot) : option K :=
  match s with
  | Some e => if in_use e then Some (key e) else None
  | None => None
  end.

Definition live_keys (tbl : list slot) : list K := omap live_key tbl.

(** [rounds] times [insert(k, v); remove(k);] *)
Fixpoint churn (k : K) (v : V) (rounds : nat) : list op :=
  match rounds with
  | 0 => []
  | S rounds' => Insert k v :: Remove k :: churn k v rounds'
  end.

(** The capacity after [inserts] more inserts of new keys into a table
    without tombstones of capacity [size] that holds [count] keys: each insert
    first doubles the capacity when [count * 2 > size]. *)
Fixpoint grow (size count inserts : nat) : nat :=
  match inserts with
  | 0 => size
  | S inserts' => grow (if size <? count * 2 then size * 2 else size) (S count) inserts'
  end.

(** * Proofs *)

(** ** Results *)

(** [lia] after unfolding the alias [slot], which it takes for another type. *)
Ltac slia := unfold slot in *; lia.

Lemma bind_Ret_inv {A B : Type} (m : res A) (f : A → res B) (b : B) :
  (m ≫= f) = Ret b → ∃ a, m = Ret a ∧ f a = Ret b.
Proof. destruct m as [a| |]; simpl; intros E; try discriminate. by exists a. Qed.

Lemma modulo_pos (x n : nat) : 0 < n → modulo x n = Ret (x mod n).
Proof. intros Hn. unfold modulo. destruct (Nat.eqb_spec n 0); [lia | done]. Qed.

Lemma at_lookup (tbl : list slot) (i : nat) (s : slot) :
  tbl !! i = Some s → at_ tbl i = Ret s.
Proof. intros E. unfold at_. by rewrite E. Qed.

(** [at_] faults exactly on an index outside the vector. *)
Lemma at_fault_iff (tbl : list slot) (i : nat) (f : fault) :
  at_ tbl i = Fault f ↔ length tbl ≤ i ∧ f = OutOfBounds.
Proof.
  unfold at_. destruct (tbl !! i) as [s|] eqn:Hi.
  - apply lookup_lt_Some in Hi. split; [done | slia].
  - apply lookup_ge_None in Hi. split; [by intros [= <-] | by intros [_ ->]].
Qed.

Lemma at_lt (tbl : list slot) (i : nat) :
  i < length tbl → ∃ s, tbl !! i = Some s ∧ at_ tbl i = Ret s.
Proof.
  intros Hi. destruct (lookup_lt_is_Some_2 tbl i Hi) as [s Hs].
  exists s. split; [done | by apply at_lookup].
Qed.

(** ** The probe sequence *)

Lemma probe_index_lt (n h d : nat) : 0 < n → probe_index n h d < n.
Proof. intros Hn. apply Nat.mod_upper_bound. lia. Qed.

Lemma probe_index_0 (n h : nat) : probe_index n h 0 = h mod n.
Proof. unfold probe_index. by rewrite Nat.add_0_r. Qed.

Lemma probe_index_S (n h d : nat) :
  (probe_index n h d + 1) mod n = probe_index n h (S d).
Proof.
  unfold probe_index. rewrite Nat.Div0.add_mod_idemp_l. f_equal. lia.
Qed.

Lemma probe_index_inj (n h d1 d2 : nat) :
  d1 < n → d2 < n → probe_index n h d1 = probe_index n h d2 → d1 = d2.
Proof.
  unfold probe_index. intros H1 H2 E.
  pose proof (Nat.div_mod_eq (h + d1) n) as E1.
  pose proof (Nat.div_mod_eq (h + d2) n) as E2.
  rewrite E in E1.
  assert ((h + d1) / n = (h + d2) / n) by nia. nia.
Qed.

Lemma probe_index_full_turn (n h : nat) : probe_index n h n = probe_index n h 0.
Proof.
  unfold probe_index. rewrite Nat.add_0_r.
  replace (h + n) with (h + 1 * n) by lia. apply Nat.Div0.mod_add.
Qed.

(** Back at the start exactly after [n] steps. *)
Lemma probe_index_back (n h d : nat) :
  0 < n → S d ≤ n →
  (probe_index n h (S d) =? h mod n) = bool_decide (S d = n).
Proof.
  intros Hn Hd. rewrite <- probe_index_0.
  destruct (decide (S d = n)) as [->|Hne].
  - rewrite probe_index_full_turn, Nat.eqb_refl. by rewrite bool_decide_eq_true_2.
  - rewrite bool_decide_eq_false_2 by done.
    apply Nat.eqb_neq. intros E. apply probe_index_inj in E; lia.
Qed.

Lemma probe_index_surj (n h i : nat) :
  i < n → ∃ d, d < n ∧ probe_index n h d = i.
Proof.
  intros Hi. unfold probe_index.
  assert (h mod n < n) as Ha by (apply Nat.mod_upper_bound; lia).
  destruct (decide (h mod n ≤ i)) as [Hle|Hgt].
  - exists (i - h mod n). split; [lia|].
    rewrite <- Nat.Div0.add_mod_idemp_l.
    replace (h mod n + (i - h mod n)) with i by lia. by apply Nat.mod_small.
  - exists (i + n - h mod n). split; [lia|].
    rewrite <- Nat.Div0.add_mod_idemp_l.
    replace (h mod n + (i + n - h mod n)) with (i + 1 * n) by lia.
    rewrite Nat.Div0.mod_add. by apply Nat.mod_small.
Qed.

(** ** Counting slots *)

Lemma count_nil (p : slot → bool) : count p [] = 0.
Proof. done. Qed.

Lemma count_cons (p : slot → bool) (s : slot) (tbl : list slot) :
  count p (s :: tbl) = Nat.b2n (p s) + count p tbl.
Proof.
  unfold count. rewrite filter_cons.
  destruct (decide (p s = true)) as [E|E].
  - by rewrite E.
  - destruct (p s); [congruence | done].
Qed.

Lemma count_le_length (p : slot → bool) (tbl : list slot) : count p tbl ≤ length tbl.
Proof. unfold count. apply length_filter. Qed.

Lemma count_replicate_None (p : slot → bool) (n : nat) :
  p None = false → count p (replicate n None) = 0.
Proof.
  intros Hp. induction n as [|n IH]; [done|].
  simpl. rewrite count_cons, Hp, IH. done.
Qed.

Lemma count_insert (p : slot → bool) (tbl : list slot) (i : nat) (s s' : slot) :
  tbl !! i = Some s →
  count p (<[i := s']> tbl) + Nat.b2n (p s) = count p tbl + Nat.b2n (p s').
Proof.
  revert i. induction tbl as [|x tbl IH]; intros i Hi; [done|].
  destruct i as [|i]; simpl in *.
  - injection Hi as ->. rewrite !count_cons. lia.
  - rewrite !count_cons. specialize (IH i Hi). lia.
Qed.

Lemma count_app (p : slot → bool) (l1 l2 : list slot) :
  count p (l1 ++ l2) = count p l1 + count p l2.
Proof.
  induction l1 as [|x l1 IH]; [done|].
  simpl. rewrite !count_cons, IH. lia.
Qed.

(** A table with fewer occupied slots than slots has a null slot. *)
Lemma free_slot_exists (tbl : list slot) :
  count is_occupied tbl < length tbl → ∃ i, tbl !! i = Some None.
Proof.
  induction tbl as [|[e|] tbl IH]; simpl; [lia| |].
  - rewrite count_cons. simpl. intros Hlt.
    destruct IH as [i Hi]; [lia|]. by exists (S i).
  - intros _. by exists 0.
Qed.

Lemma count_pos_of_lookup (p : slot → bool) (tbl : list slot) (i : nat) (s : slot) :
  tbl !! i = Some s → p s = true → 0 < count p tbl.
Proof.
  revert i. induction tbl as [|x tbl IH]; intros i Hi Hp; [done|].
  rewrite count_cons. destruct i as [|i]; simpl in Hi.
  - injection Hi as ->. rewrite Hp. simpl. lia.
  - specialize (IH i Hi Hp). lia.
Qed.

(** ** The three probing loops are one probe *)

Lemma insert_loop_probe (fuel : nat) (t : CustomHashTable) (k : K) (v : V) (o i : nat) :
  insert_loop fuel t k v o i = r ← probe fuel t k o i; Ret (insert_exit_of t v r).
Proof.
  revert i. induction fuel as [|fuel IH]; intros i; [done|].
  simpl. destruct (at_ (table t) i) as [[e|]| |]; simpl; try done.
  destruct (matches k e); [done|].
  destruct (modulo (i + 1) (table_size t)) as [i'| |]; simpl; try done.
  destruct (i' =? o); [done | apply IH].
Qed.

Lemma find_loop_probe (fuel : nat) (t : CustomHashTable) (k : K) (o i : nat) :
  find_loop fuel t k o i = r ← probe fuel t k o i; Ret (find_exit_of r).
Proof.
  revert i. induction fuel as [|fuel IH]; intros i; [done|].
  simpl. destruct (at_ (table t) i) as [[e|]| |]; simpl; try done.
  destruct (matches k e); [done|].
  destruct (modulo (i + 1) (table_size t)) as [i'| |]; simpl; try done.
  destruct (i' =? o); [done | apply IH].
Qed.

Lemma remove_loop_probe (fuel : nat) (t : CustomHashTable) (k : K) (o i : nat) :
  remove_loop fuel t k o i = r ← probe fuel t k o i; Ret (remove_exit_of t r).
Proof.
  revert i. induction fuel as [|fuel IH]; intros i; [done|].
  simpl. destruct (at_ (table t) i) as [[e|]| |]; simpl; try done.
  destruct (matches k e); [done|].
  destruct (modulo (i + 1) (table_size t)) as [i'| |]; simpl; try done.
  destruct (i' =? o); [done | apply IH].
Qed.

(** More fuel does not change what a probe returns. *)
Lemma probe_fuel_mono (fuel fuel' : nat) (t : CustomHashTable) (k : K) (o i : nat)
    (r : probe_result) :
  probe fuel t k o i = Ret r → fuel ≤ fuel' → probe fuel' t k o i = Ret r.
Proof.
  revert fuel' i. induction fuel as [|fuel IH]; intros fuel' i Hr Hle; [done|].
  destruct fuel' as [|fuel']; [lia|]. simpl in *.
  destruct (at_ (table t) i) as [[e|]| |]; simpl in *; try done.
  destruct (matches k e); [done|].
  destruct (modulo (i + 1) (table_size t)) as [i'| |]; simpl in *; try done.
  destruct (i' =? o); [done|]. apply IH; [done | lia].
Qed.

(** The probe returns within [table_size] iterations, with no fault. *)
Lemma probe_from (t : CustomHashTable) (k : K) (fuel d : nat) :
  well_formed t →
  d + fuel = table_size t → d < table_size t →
  (∀ d', d' < d → blocked (table t) k (probe_index (table_size t) (hashf k) d')) →
  ∃ r, probe fuel t k (hashf k mod table_size t)
             (probe_index (table_size t) (hashf k) d) = Ret r ∧ probe_post t k r.
Proof.
  intros [Hlen Hpos]. revert d.
  induction fuel as [|fuel IH]; intros d Hfuel Hd Hblocked; [lia|].
  simpl.
  destruct (at_lt (table t) (probe_index (table_size t) (hashf k) d)) as (s & Hs & ->).
  { rewrite Hlen. by apply probe_index_lt. }
  simpl. destruct s as [e|].
  - destruct (matches k e) eqn:Hm.
    + eexists. split; [done|]. exists d. eauto.
    + rewrite modulo_pos by done. simpl.
      rewrite probe_index_S, probe_index_back by lia.
      assert (∀ d', d' < S d →
                blocked (table t) k (probe_index (table_size t) (hashf k) d')) as Hblocked'.
      { intros d' Hd'. destruct (decide (d' = d)) as [->|]; [by exists e|].
        apply Hblocked. lia. }
      case_bool_decide as Hturn.
      * eexists. split; [done|]. simpl. intros d' Hd'. apply Hblocked'. lia.
      * apply IH; [lia | lia | done].
  - eexists. split; [done|]. exists d. eauto.
Qed.

Lemma probe_total (t : CustomHashTable) (k : K) :
  well_formed t →
  ∃ r, probe (table_size t) t k (hashf k mod table_size t) (hashf k mod table_size t) = Ret r
       ∧ probe_post t k r.
Proof.
  intros Hwf.
  pose proof (probe_from t k (table_size t) 0 Hwf) as H.
  rewrite probe_index_0 in H. apply H; [lia | apply Hwf | intros; lia].
Qed.

Lemma hash_wf (t : CustomHashTable) (k : K) :
  well_formed t → hash t k = Ret (hashf k mod table_size t).
Proof. intros [_ Hpos]. unfold hash. by apply modulo_pos. Qed.

Lemma matches_true (k : K) (e : Entry) :
  matches k e = true ↔ in_use e = true ∧ key e = k.
Proof.
  unfold matches. rewrite andb_true_iff, bool_decide_eq_true. done.
Qed.

Lemma matches_false (k : K) (e : Entry) :
  matches k e = false ↔ ¬ (in_use e = true ∧ key e = k).
Proof. rewrite <- matches_true. destruct (matches k e); naive_solver. Qed.

(** A live slot with key [k] that probing reaches before any null slot is
    found by the probe, unless an earlier live slot with [k] is. *)
Lemma probe_post_live (t : CustomHashTable) (k : K) (r : probe_result) (i : nat) (e : Entry) :
  probe_post t k r →
  live_at (table t) i e → key e = k →
  reach (table t) (table_size t) k i →
  ∃ i' e', r = PFound i' e'.
Proof.
  intros Hpost [Hi Hlive] Hk (d & Hd & Hdi & Hchain).
  assert (∀ d', d < d' →
     ¬ ∀ d'', d'' < d' → blocked (table t) k (probe_index (table_size t) (hashf k) d''))
    as Hnot_blocked.
  { intros d' Hlt Hb. destruct (Hb d Hlt) as (e' & He' & Hm).
    rewrite Hdi, Hi in He'. injection He' as <-.
    apply matches_false in Hm. tauto. }
  destruct r as [i' e'|i'|]; simpl in Hpost.
  - eauto.
  - destruct Hpost as (d' & Hd' & -> & Hnull & Hb).
    destruct (decide (d' < d)) as [Hlt|Hge].
    + destruct (Hchain d' Hlt) as [e' He']. congruence.
    + destruct (decide (d' = d)) as [->|Hne]; [congruence|].
      exfalso. apply (Hnot_blocked d'); [lia | done].
  - exfalso. by apply (Hnot_blocked (table_size t)).
Qed.

Lemma probe_post_found (t : CustomHashTable) (k : K) (i : nat) (e : Entry) :
  probe_post t k (PFound i e) → live_at (table t) i e ∧ key e = k.
Proof.
  intros (d & _ & _ & Hi & Hm & _). apply matches_true in Hm. by destruct Hm.
Qed.

Lemma probe_post_found_reach (t : CustomHashTable) (k : K) (i : nat) (e : Entry) :
  probe_post t k (PFound i e) → reach (table t) (table_size t) k i.
Proof.
  intros (d & Hd & -> & _ & _ & Hb). exists d. split_and!; [done..|].
  intros d' Hd'. destruct (Hb d' Hd') as (e' & He' & _). eauto.
Qed.

Lemma probe_post_null_reach (t : CustomHashTable) (k : K) (i : nat) :
  probe_post t k (PNull i) → reach (table t) (table_size t) k i.
Proof.
  intros (d & Hd & -> & _ & Hb). exists d. split_and!; [done..|].
  intros d' Hd'. destruct (Hb d' Hd') as (e' & He' & _). eauto.
Qed.

(** After a whole turn every slot is occupied and none matches. *)
Lemma probe_post_wrap (t : CustomHashTable) (k : K) (i : nat) :
  probe_post t k PWrap → i < table_size t → blocked (table t) k i.
Proof.
  intros Hb Hi. destruct (probe_index_surj (table_size t) (hashf k) i Hi) as (d & Hd & <-).
  by apply Hb.
Qed.

(** ** Writing one slot *)

Lemma lookup_write (tbl : list slot) (i j : nat) (s : slot) :
  i < length tbl → <[i := s]> tbl !! j = if decide (j = i) then Some s else tbl !! j.
Proof.
  intros Hi. case_decide as Hj.
  - subst j. by apply list_lookup_insert_eq.
  - apply list_lookup_insert_ne. congruence.
Qed.

Lemma write_keeps_occupied (tbl : list slot) (i j : nat) (e e0 : Entry) :
  tbl !! j = Some (Some e0) → ∃ e1, <[i := Some e]> tbl !! j = Some (Some e1).
Proof.
  intros Hj. destruct (decide (j = i)) as [->|Hne].
  - exists e. apply list_lookup_insert_eq. by apply lookup_lt_Some in Hj.
  - exists e0. rewrite list_lookup_insert_ne by congruence. done.
Qed.

Lemma chain_mono (tbl tbl' : list slot) (n h d : nat) :
  (∀ j e0, tbl !! j = Some (Some e0) → ∃ e1, tbl' !! j = Some (Some e1)) →
  chain tbl n h d → chain tbl' n h d.
Proof.
  intros Hocc Hchain d' Hd'. destruct (Hchain d' Hd') as [e0 He0]. by eapply Hocc.
Qed.

Lemma reach_mono (tbl tbl' : list slot) (n : nat) (k : K) (i : nat) :
  (∀ j e0, tbl !! j = Some (Some e0) → ∃ e1, tbl' !! j = Some (Some e1)) →
  reach tbl n k i → reach tbl' n k i.
Proof.
  intros Hocc (d & Hd & Hi & Hchain). exists d. split_and!; [done..|].
  by eapply chain_mono.
Qed.

Lemma live_at_write_inv (tbl : list slot) (i j : nat) (s : slot) (e0 : Entry) :
  i < length tbl →
  live_at (<[i := s]> tbl) j e0 → (j = i ∧ s = Some e0) ∨ (j ≠ i ∧ live_at tbl j e0).
Proof.
  intros Hi [Hj Hlive]. rewrite lookup_write in Hj by done.
  case_decide; [left | right]; split; try done. congruence.
Qed.

Lemma live_at_write_other (tbl : list slot) (i j : nat) (s : slot) (e0 : Entry) :
  j ≠ i → live_at tbl j e0 → live_at (<[i := s]> tbl) j e0.
Proof.
  intros Hne [Hj Hlive]. split; [|done]. rewrite list_lookup_insert_ne by congruence. done.
Qed.

Lemma live_at_write_same (tbl : list slot) (i : nat) (e : Entry) :
  i < length tbl → in_use e = true → live_at (<[i := Some e]> tbl) i e.
Proof. intros Hi He. split; [by apply list_lookup_insert_eq | done]. Qed.

(** Rewriting an occupied slot with an entry of the same key that is live
    only if the old one was: the overwrite of [insert], the tombstone of
    [remove]. *)
Section update.
Variables (tbl : list slot) (i : nat) (e e' : Entry).
Hypothesis Hslot : tbl !! i = Some (Some e).
Hypothesis Hkey : key e' = key e.
Hypothesis Hlive : in_use e' = true → in_use e = true.

Lemma live_at_update_back (j : nat) (e0 : Entry) :
  live_at (<[i := Some e']> tbl) j e0 → ∃ e1, live_at tbl j e1 ∧ key e1 = key e0.
Proof.
  intros Hj. pose proof (lookup_lt_Some _ _ _ Hslot) as Hi.
  destruct (live_at_write_inv _ _ _ _ _ Hi Hj) as [[-> He0]|[Hne Hj']].
  - injection He0 as <-. exists e. split; [|done]. split; [done|]. apply Hlive, Hj.
  - by exists e0.
Qed.

Lemma unique_keys_update : unique_keys tbl → unique_keys (<[i := Some e']> tbl).
Proof.
  intros Huniq j1 j2 e1 e2 H1 H2 Hk.
  destruct (live_at_update_back _ _ H1) as (e1' & H1' & Hk1).
  destruct (live_at_update_back _ _ H2) as (e2' & H2' & Hk2).
  eapply Huniq; [done..|congruence].
Qed.

Lemma valid_keys_update : valid_keys tbl → valid_keys (<[i := Some e']> tbl).
Proof.
  intros Hvalid j e0 Hj.
  destruct (live_at_update_back _ _ Hj) as (e1 & Hj' & <-). by eapply Hvalid.
Qed.

Lemma Inv_update (n c c' : nat) :
  Inv (mkTable tbl n c) →
  c' + Nat.b2n (in_use e) = c + Nat.b2n (in_use e') →
  Inv (mkTable (<[i := Some e']> tbl) n c').
Proof.
  intros [[Hlen Hpos] Hcount Hreach] Hc. simpl in *.
  split; simpl.
  - split; simpl; [by rewrite length_insert | done].
  - pose proof (count_insert is_live tbl i (Some e) (Some e') Hslot) as Hci.
    change (is_live (Some e)) with (in_use e) in Hci.
    change (is_live (Some e')) with (in_use e') in Hci. slia.
  - intros j e0 Hj.
    destruct (live_at_update_back _ _ Hj) as (e1 & Hj' & <-).
    eapply reach_mono; [|by apply Hreach].
    intros j' e2. apply write_keeps_occupied.
Qed.

End update.

(** Filling a null slot that probing for [k] reaches. *)
Section fill.
Variables (tbl : list slot) (i : nat) (k : K) (v : V).
Hypothesis Hslot : tbl !! i = Some None.

Lemma live_at_fill_inv (j : nat) (e0 : Entry) :
  live_at (<[i := Some (mkEntry k v true)]> tbl) j e0 →
  (j = i ∧ e0 = mkEntry k v true) ∨ (j ≠ i ∧ live_at tbl j e0).
Proof.
  intros Hj. pose proof (lookup_lt_Some _ _ _ Hslot) as Hi.
  destruct (live_at_write_inv _ _ _ _ _ Hi Hj) as [[-> He0]|?]; [left|by right].
  split; congruence.
Qed.

Lemma unique_keys_fill :
  unique_keys tbl → (∀ j e0, live_at tbl j e0 → key e0 ≠ k) →
  unique_keys (<[i := Some (mkEntry k v true)]> tbl).
Proof.
  intros Huniq Hfresh j1 j2 e1 e2 H1 H2 Hk.
  destruct (live_at_fill_inv _ _ H1) as [[-> ->]|[Hn1 H1']];
    destruct (live_at_fill_inv _ _ H2) as [[-> ->]|[Hn2 H2']]; simpl in *.
  - done.
  - exfalso. by eapply Hfresh.
  - exfalso. by eapply Hfresh.
  - by eapply Huniq.
Qed.

Lemma valid_keys_fill :
  valid_keys tbl → check_key k = true →
  valid_keys (<[i := Some (mkEntry k v true)]> tbl).
Proof.
  intros Hvalid Hk j e0 Hj.
  destruct (live_at_fill_inv _ _ Hj) as [[-> ->]|[Hn Hj']]; [done | by eapply Hvalid].
Qed.

Lemma Inv_fill (n c : nat) :
  Inv (mkTable tbl n c) → reach tbl n k i →
  Inv (mkTable (<[i := Some (mkEntry k v true)]> tbl) n (S c)).
Proof.
  intros [[Hlen Hpos] Hcount Hreach] Hk. simpl in *.
  split; simpl.
  - split; simpl; [by rewrite length_insert | done].
  - pose proof (count_insert is_live tbl i None (Some (mkEntry k v true)) Hslot) as Hci.
    change (Nat.b2n (is_live None)) with 0 in Hci.
    change (Nat.b2n (is_live (Some (mkEntry k v true)))) with 1 in Hci.
    slia.
  - intros j e0 Hj.
    eapply reach_mono; [intros j' e2; apply write_keeps_occupied|].
    destruct (live_at_fill_inv _ _ Hj) as [[-> ->]|[Hn Hj']]; [done | by apply Hreach].
Qed.

End fill.

(** ** The loop of [resize] *)

Lemma chain_full (nt : list slot) (m h i : nat) :
  chain nt m h m → i < m → ∃ e, nt !! i = Some (Some e).
Proof.
  intros Hchain Hi. destruct (probe_index_surj m h i Hi) as (d & Hd & <-).
  by apply Hchain.
Qed.

Lemma chain_S (nt : list slot) (m h d : nat) (e : Entry) :
  chain nt m h d → nt !! probe_index m h d = Some (Some e) → chain nt m h (S d).
Proof.
  intros Hchain He d' Hd'. destruct (decide (d' = d)) as [->|Hne]; [by exists e|].
  apply Hchain. lia.
Qed.

(** With a null slot in the new vector the loop stops at the first one on
    the probe sequence. *)
Lemma resize_probe_from (nt : list slot) (m h fuel d : nat) :
  length nt = m → 0 < m → (∃ i, nt !! i = Some None) →
  d + fuel = m → chain nt m h d →
  ∃ d0, d0 < m ∧
        resize_probe fuel nt m (probe_index m h d) = Ret (probe_index m h d0) ∧
        nt !! probe_index m h d0 = Some None ∧ chain nt m h d0.
Proof.
  intros Hlen Hm [i Hi]. revert d.
  induction fuel as [|fuel IH]; intros d Hfuel Hchain.
  - exfalso. replace d with m in Hchain by lia.
    destruct (chain_full nt m h i Hchain) as [e He]; [|congruence].
    rewrite <- Hlen. by eapply lookup_lt_Some.
  - simpl. destruct (at_lt nt (probe_index m h d)) as (s & Hs & ->).
    { rewrite Hlen. by apply probe_index_lt. }
    simpl. destruct s as [e|].
    + rewrite modulo_pos by done. simpl. rewrite probe_index_S.
      apply IH; [lia | by eapply chain_S].
    + exists d. split_and!; [lia | done..].
Qed.

Lemma resize_probe_null (nt : list slot) (m h : nat) :
  length nt = m → 0 < m → (∃ i, nt !! i = Some None) →
  ∃ j, resize_probe m nt m (h mod m) = Ret j ∧ nt !! j = Some None ∧
       ∃ d, d < m ∧ probe_index m h d = j ∧ chain nt m h d.
Proof.
  intros Hlen Hm Hfree.
  destruct (resize_probe_from nt m h m 0 Hlen Hm Hfree) as (d & Hd & Hr & Hnull & Hchain).
  { lia. } { intros d' Hd'. lia. }
  rewrite probe_index_0 in Hr. exists (probe_index m h d). split_and!; [done..|].
  exists d. done.
Qed.

(** Without a null slot the loop of the source never ends: here it runs
    out of fuel, whatever the fuel. *)
Lemma resize_probe_diverges (nt : list slot) (m : nat) :
  0 < m → (∀ i, i < m → ∃ e, nt !! i = Some (Some e)) →
  ∀ fuel i, i < m → resize_probe fuel nt m i = Diverge.
Proof.
  intros Hm Hfull fuel. induction fuel as [|fuel IH]; intros i Hi; [done|].
  simpl. destruct (Hfull i Hi) as [e He]. rewrite (at_lookup _ _ _ He). simpl.
  rewrite modulo_pos by done. simpl. apply IH. apply Nat.mod_upper_bound. lia.
Qed.

(** More fuel does not change the slot the loop stops at. *)
Lemma resize_probe_fuel_mono (nt : list slot) (m fuel fuel' i j : nat) :
  resize_probe fuel nt m i = Ret j → fuel ≤ fuel' → resize_probe fuel' nt m i = Ret j.
Proof.
  revert fuel' i. induction fuel as [|fuel IH]; intros fuel' i Hr Hle; [done|].
  destruct fuel' as [|fuel']; [lia|]. simpl in *.
  destruct (at_ nt i) as [[e|]| |]; simpl in *; try done.
  destruct (modulo (i + 1) m) as [i'| |]; simpl in *; try done.
  apply IH; [done | lia].
Qed.

Lemma rehashed_nil (m : nat) : rehashed [] m (replicate m None).
Proof.
  split.
  - apply length_replicate.
  - by rewrite count_replicate_None.
  - intros j e Hj. apply lookup_replicate in Hj as [? _]. done.
  - intros i e [Hi _]. done.
  - intros j e Hj. apply lookup_replicate in Hj as [? _]. done.
  - intros _ j1 j2 e1 e2 [H1 _]. apply lookup_replicate in H1 as [? _]. done.
Qed.

Lemma live_at_snoc_inv (l : list slot) (x : slot) (i : nat) (e : Entry) :
  live_at (l ++ [x]) i e → live_at l i e ∨ (i = length l ∧ x = Some e ∧ in_use e = true).
Proof.
  intros [Hi Hlive]. apply lookup_app_Some in Hi as [Hi|[Hge Hi]].
  - by left.
  - right. apply list_lookup_singleton_Some in Hi as [Hi ->].
    split_and!; [slia | done..].
Qed.

Lemma unique_keys_snoc (l : list slot) (x : slot) :
  unique_keys (l ++ [x]) → unique_keys l.
Proof.
  intros Huniq i j e1 e2 [H1 L1] [H2 L2] Hk.
  apply (Huniq i j e1 e2); [split|split|]; try done; by apply lookup_app_l_Some.
Qed.

(** A slot that is null or a tombstone is skipped. *)
Lemma rehashed_skip (l : list slot) (x : slot) (m : nat) (nt : list slot) :
  is_live x = false → rehashed l m nt → rehashed (l ++ [x]) m nt.
Proof.
  intros Hx [Hlen Hcount Hfrom Hto Hreach Huniq]. split.
  - done.
  - rewrite count_app, count_cons, Hx, count_nil. simpl. lia.
  - intros j e Hj. destruct (Hfrom j e Hj) as [Hlive [i Hi]].
    split; [done|]. exists i. by apply lookup_app_l_Some.
  - intros i e Hi. destruct (live_at_snoc_inv _ _ _ _ Hi) as [Hi'|(_ & -> & Hlive)].
    + by eapply Hto.
    + simpl in Hx. congruence.
  - done.
  - intros Hu. apply Huniq. by eapply unique_keys_snoc.
Qed.

(** A live entry is put at the null slot its probe stops at. *)
Lemma rehashed_place (l : list slot) (e : Entry) (m : nat) (nt : list slot) (j : nat) :
  in_use e = true → nt !! j = Some None → reach nt m (key e) j →
  rehashed l m nt → rehashed (l ++ [Some e]) m (<[j := Some e]> nt).
Proof.
  intros He Hj Hreach_j [Hlen Hcount Hfrom Hto Hreach Huniq].
  pose proof (lookup_lt_Some _ _ _ Hj) as Hjlt.
  assert (∀ j' e', <[j := Some e]> nt !! j' = Some (Some e') →
                   (j' = j ∧ e' = e) ∨ (j' ≠ j ∧ nt !! j' = Some (Some e'))) as Hinv.
  { intros j' e' Hj'. rewrite lookup_write in Hj' by done.
    case_decide as Hdec; [left | right]; split; try done.
    by injection Hj' as ->. }
  split.
  - by rewrite length_insert.
  - pose proof (count_insert is_occupied nt j None (Some e) Hj) as Hci.
    change (Nat.b2n (is_occupied None)) with 0 in Hci.
    change (Nat.b2n (is_occupied (Some e))) with 1 in Hci.
    rewrite count_app, count_cons, count_nil. simpl. rewrite He. simpl.
    slia.
  - intros j' e' Hj'. destruct (Hinv j' e' Hj') as [[-> ->]|[Hne Hj'']].
    + split; [done|]. exists (length l). by rewrite list_lookup_middle.
    + destruct (Hfrom j' e' Hj'') as [Hlive [i Hi]].
      split; [done|]. exists i. by apply lookup_app_l_Some.
  - intros i e' Hi. destruct (live_at_snoc_inv _ _ _ _ Hi) as [Hi'|(_ & He' & _)].
    + destruct (Hto i e' Hi') as [j' Hj']. exists j'.
      rewrite list_lookup_insert_ne; [done | congruence].
    + injection He' as <-. exists j. by apply list_lookup_insert_eq.
  - intros j' e' Hj'.
    eapply reach_mono; [intros j'' e''; apply write_keeps_occupied|].
    destruct (Hinv j' e' Hj') as [[-> ->]|[Hne Hj'']]; [done | by apply Hreach].
  - intros Hu. specialize (Huniq (unique_keys_snoc _ _ Hu)).
    assert (∀ j' e', nt !! j' = Some (Some e') → key e' ≠ key e) as Hfresh.
    { intros j' e' Hj' Hk. destruct (Hfrom j' e' Hj') as [Hlive [i Hi]].
      assert (i = length l) as ->; [|apply lookup_lt_Some in Hi; slia].
      apply (Hu i (length l) e' e); [split; [by apply lookup_app_l_Some | done] | | done].
      split; [by rewrite list_lookup_middle | done]. }
    intros j1 j2 e1 e2 [H1 L1] [H2 L2] Hk.
    destruct (Hinv j1 e1 H1) as [[-> ->]|[Hn1 H1']];
      destruct (Hinv j2 e2 H2) as [[-> ->]|[Hn2 H2']].
    + done.
    + exfalso. by eapply Hfresh.
    + exfalso. by eapply Hfresh.
    + by apply (Huniq j1 j2 e1 e2).
Qed.

(** The loop of [resize] over [l] returns when the new vector is longer
    than [l]. *)
Lemma resize_fold (l : list slot) (m : nat) :
  length l < m →
  ∃ nt, foldl (resize_step m) (Ret (replicate m None)) l = Ret nt ∧ rehashed l m nt.
Proof.
  induction l as [|x l IH] using rev_ind; intros Hlen.
  - exists (replicate m None). split; [done | apply rehashed_nil].
  - rewrite length_app in Hlen. simpl in Hlen.
    destruct IH as (nt & Hfold & Hnt); [lia|].
    rewrite foldl_app, Hfold. simpl.
    destruct x as [e|]; [destruct (in_use e) eqn:He|].
    + assert (∃ i, nt !! i = Some None) as Hfree.
      { apply free_slot_exists. rewrite (rh_count _ _ _ Hnt), (rh_length _ _ _ Hnt).
        pose proof (count_le_length is_live l). lia. }
      rewrite modulo_pos by lia. simpl.
      destruct (resize_probe_null nt m (hashf (key e)) (rh_length _ _ _ Hnt)) as
        (j & -> & Hj & d & Hd & Hdj & Hchain); [lia | done |].
      simpl. eexists. split; [done|]. apply rehashed_place; try done.
      exists d. done.
    + exists nt. split; [done|]. apply rehashed_skip; [|done]. simpl. by rewrite He.
    + exists nt. split; [done|]. by apply rehashed_skip.
Qed.

(** ** [resize] *)

Lemma resize_noop (t : CustomHashTable) :
  item_count t * 2 ≤ table_size t → resize t = Ret t.
Proof.
  intros Hle. unfold resize.
  destruct (Nat.ltb_spec (table_size t) (item_count t * 2)); [lia | done].
Qed.

(** [resize] returns in every well-formed state: it leaves the table as it
    is, or rebuilds it at twice the size. *)
Lemma resize_cases (t : CustomHashTable) :
  well_formed t →
  (item_count t * 2 ≤ table_size t ∧ resize t = Ret t) ∨
  (table_size t < item_count t * 2 ∧
   ∃ nt, resize t = Ret (mkTable nt (table_size t * 2) (item_count t)) ∧
         rehashed (table t) (table_size t * 2) nt).
Proof.
  intros [Hlen Hpos]. unfold resize.
  destruct (Nat.ltb_spec (table_size t) (item_count t * 2)) as [Hlt|Hge].
  - right. split; [done|].
    destruct (resize_fold (table t) (table_size t * 2)) as (nt & -> & Hnt); [lia|].
    exists nt. done.
  - left. done.
Qed.

Lemma count_ext (p q : slot → bool) (tbl : list slot) :
  (∀ j s, tbl !! j = Some s → p s = q s) → count p tbl = count q tbl.
Proof.
  induction tbl as [|x tbl IH]; intros Hpq; [done|].
  rewrite !count_cons, (Hpq 0 x), IH; [done | | done].
  intros j s Hj. by apply (Hpq (S j)).
Qed.

Lemma rehashed_no_tombstone (l : list slot) (m : nat) (nt : list slot) (j : nat) (s : slot) :
  rehashed l m nt → nt !! j = Some s → is_tombstone s = false.
Proof.
  intros Hnt Hj. destruct s as [e|]; [|done].
  destruct (rh_from _ _ _ Hnt j e Hj) as [He _]. simpl. by rewrite He.
Qed.

Lemma rehashed_count_live (l : list slot) (m : nat) (nt : list slot) :
  rehashed l m nt → count is_live nt = count is_live l.
Proof.
  intros Hnt. rewrite <- (rh_count _ _ _ Hnt). apply count_ext.
  intros j [e|] Hj; [|done]. simpl. by destruct (rh_from _ _ _ Hnt j e Hj) as [-> _].
Qed.

Lemma rehashed_live_at (l : list slot) (m : nat) (nt : list slot) (e : Entry) :
  rehashed l m nt → (∃ j, live_at nt j e) ↔ (∃ i, live_at l i e).
Proof.
  intros Hnt. split.
  - intros (j & Hj & He). destruct (rh_from _ _ _ Hnt j e Hj) as [_ [i Hi]].
    exists i. done.
  - intros (i & Hi). destruct (rh_to _ _ _ Hnt i e Hi) as [j Hj].
    exists j. split; [done | apply Hi].
Qed.

Lemma rehashed_Inv (t : CustomHashTable) (m : nat) (nt : list slot) :
  0 < m → item_count t = count is_live (table t) →
  rehashed (table t) m nt → Inv (mkTable nt m (item_count t)).
Proof.
  intros Hm Hcount Hnt. split; simpl.
  - split; simpl; [apply (rh_length _ _ _ Hnt) | done].
  - by rewrite (rehashed_count_live _ _ _ Hnt).
  - intros j e [Hj _]. by apply (rh_reach _ _ _ Hnt).
Qed.

Lemma rehashed_valid_keys (l : list slot) (m : nat) (nt : list slot) :
  rehashed l m nt → valid_keys l → valid_keys nt.
Proof.
  intros Hnt Hvalid j e Hj.
  destruct (proj1 (rehashed_live_at _ _ _ e Hnt)) as [i Hi]; [by exists j|].
  by eapply Hvalid.
Qed.

Lemma Inv_count_le (t : CustomHashTable) : Inv t → item_count t ≤ table_size t.
Proof.
  intros [[Hlen _] Hcount _]. rewrite Hcount, <- Hlen. apply count_le_length.
Qed.

(** The summary of [resize] on a state that satisfies the invariant. *)
Lemma resize_Inv (t : CustomHashTable) :
  Inv t →
  ∃ t1, resize t = Ret t1 ∧ Inv t1 ∧
        item_count t1 = item_count t ∧
        item_count t1 * 2 ≤ table_size t1 ∧
        table_size t1 = (if table_size t <? item_count t * 2
                         then table_size t * 2 else table_size t) ∧
        (∀ e, (∃ j, live_at (table t1) j e) ↔ (∃ i, live_at (table t) i e)) ∧
        (unique_keys (table t) → unique_keys (table t1)) ∧
        (valid_keys (table t) → valid_keys (table t1)).
Proof.
  intros HInv. pose proof (Inv_count_le t HInv) as Hle.
  destruct (resize_cases t (inv_wf t HInv)) as [[Hsmall ->]|(Hbig & nt & -> & Hnt)].
  - exists t. destruct (Nat.ltb_spec (table_size t) (item_count t * 2)); [lia|].
    split_and!; done.
  - eexists. split; [done|]. simpl.
    destruct (Nat.ltb_spec (table_size t) (item_count t * 2)); [|lia].
    destruct HInv as [[Hlen Hpos] Hcount Hreach].
    split_and!; try done.
    + apply rehashed_Inv; [lia | done | done].
    + lia.
    + intros e. by eapply rehashed_live_at.
    + apply (rh_unique _ _ _ Hnt).
    + by eapply rehashed_valid_keys.
Qed.

Lemma resize_well_formed (t : CustomHashTable) :
  well_formed t → ∃ t1, resize t = Ret t1 ∧ well_formed t1.
Proof.
  intros Hwf. destruct (resize_cases t Hwf) as [[_ ->]|(_ & nt & -> & Hnt)].
  - by exists t.
  - eexists. split; [done|]. destruct Hwf as [_ Hpos].
    split; simpl; [apply (rh_length _ _ _ Hnt) | lia].
Qed.

(** ** [insert] *)

Lemma insert_unfold (depth : nat) (k : K) (v : V) (t : CustomHashTable) :
  insert depth k v t =
  if negb (check_key k) then Ret (false, t)
  else
    t1 ← resize t;
    index ← hash t1 k;
    exit ← insert_loop (table_size t1) t1 k v index index;
    match exit with
    | Overwritten t2 => Ret (true, t2)
    | Wrapped =>
        t2 ← resize t1;
        match depth with
        | 0 => Diverge
        | S depth' => insert depth' k v t2
        end
    | NullSlot index =>
        _ ← at_ (table t1) index;
        Ret (true,
             {| table := <[index := Some (mkEntry k v true)]> (table t1);
                table_size := table_size t1;
                item_count := S (item_count t1) |})
    end.
Proof. destruct depth; reflexivity. Qed.

(** One level of [insert] in a well-formed state. *)
Lemma insert_step (depth : nat) (k : K) (v : V) (t : CustomHashTable) :
  well_formed t → check_key k = true →
  ∃ t1 r, resize t = Ret t1 ∧ well_formed t1 ∧ probe_post t1 k r ∧
          probe (table_size t1) t1 k (hashf k mod table_size t1)
                (hashf k mod table_size t1) = Ret r ∧
          insert depth k v t =
          match r with
          | PWrap =>
              t2 ← resize t1;
              match depth with
              | 0 => Diverge
              | S depth' => insert depth' k v t2
              end
          | _ => Ret (true, insert_result t1 k v r)
          end.
Proof.
  intros Hwf Hk. destruct (resize_well_formed t Hwf) as (t1 & Hres & Hwf1).
  destruct (probe_total t1 k Hwf1) as (r & Hprobe & Hpost).
  exists t1, r. split_and!; try done.
  rewrite insert_unfold, Hk, Hres. simpl.
  rewrite (hash_wf _ _ Hwf1). simpl.
  rewrite insert_loop_probe, Hprobe. simpl.
  destruct r as [i e|i|]; simpl; try done.
  destruct Hpost as (d & _ & _ & Hi & _). by rewrite (at_lookup _ _ _ Hi).
Qed.

(** Once the probe has wrapped in a table that [resize] leaves alone, every
    retry meets the same table and wraps again. *)
Lemma insert_wrap_diverges (k : K) (v : V) (t : CustomHashTable) :
  check_key k = true → resize t = Ret t →
  probe (table_size t) t k (hashf k mod table_size t) (hashf k mod table_size t) = Ret PWrap →
  0 < table_size t →
  ∀ depth, insert depth k v t = Diverge.
Proof.
  intros Hk Hres Hprobe Hpos depth.
  induction depth as [|depth IH]; rewrite insert_unfold, Hk, Hres; simpl;
    unfold hash; rewrite modulo_pos by done; simpl;
    rewrite insert_loop_probe, Hprobe; simpl; rewrite Hres; simpl; done.
Qed.

(** What [insert] returns at one nesting depth it returns at every greater
    one. *)
Lemma insert_depth_mono (depth depth' : nat) (k : K) (v : V) (t : CustomHashTable)
    (x : bool * CustomHashTable) :
  insert depth k v t = Ret x → depth ≤ depth' → insert depth' k v t = Ret x.
Proof.
  revert depth' t. induction depth as [|depth IH]; intros depth' t Hins Hle;
    rewrite insert_unfold in Hins; rewrite insert_unfold;
    (destruct (negb (check_key k)); [done|]);
    (destruct (resize t) as [t1| |]; simpl in *; [|done..]);
    (destruct (hash t1 k) as [i| |]; simpl in *; [|done..]);
    (destruct (insert_loop (table_size t1) t1 k v i i) as [[t2| |j]| |];
       simpl in *; try done);
    (destruct (resize t1) as [t2| |]; simpl in *; [|done..]).
  - done.
  - destruct depth' as [|depth']; [lia|]. apply IH; [done | lia].
Qed.

(** In a state that satisfies the invariant [insert] has two outcomes: it
    returns [true] at once, or the probe wraps and it never returns. *)
Lemma insert_cases (depth : nat) (k : K) (v : V) (t : CustomHashTable) :
  Inv t → check_key k = true →
  ∃ t1 r, resize t = Ret t1 ∧ Inv t1 ∧ probe_post t1 k r ∧
          insert depth k v t =
          match r with
          | PWrap => Diverge
          | _ => Ret (true, insert_result t1 k v r)
          end.
Proof.
  intros HInv Hk.
  destruct (resize_Inv t HInv) as (t1 & Hres & HInv1 & _ & Hsmall & _).
  destruct (insert_step depth k v t (inv_wf t HInv) Hk)
    as (t1' & r & Hres' & Hwf1 & Hpost & Hprobe & Hins).
  rewrite Hres in Hres'. injection Hres' as <-.
  exists t1, r. split_and!; try done.
  rewrite Hins. destruct r as [i e|i|]; try done.
  pose proof (resize_noop t1 Hsmall) as Hnoop. rewrite Hnoop. simpl.
  destruct depth as [|depth]; [done|].
  apply insert_wrap_diverges; [done | done | done | apply Hwf1].
Qed.

Lemma probe_post_fresh (t : CustomHashTable) (k : K) (i : nat) :
  Inv t → probe_post t k (PNull i) → ∀ j e, live_at (table t) j e → key e ≠ k.
Proof.
  intros HInv Hpost j e Hj Hk.
  destruct (probe_post_live t k (PNull i) j e Hpost Hj Hk) as (i' & e' & Hr); [|done].
  rewrite <- Hk. by apply (inv_reach t HInv).
Qed.

Lemma insert_result_Inv (t1 : CustomHashTable) (k : K) (v : V) (r : probe_result) :
  Inv t1 → probe_post t1 k r → Inv (insert_result t1 k v r).
Proof.
  intros HInv Hpost. destruct r as [i e|i|]; [| |done].
  - destruct Hpost as (d & _ & _ & Hi & _). destruct t1 as [tbl n c]. simpl in *.
    by eapply (Inv_update tbl i e).
  - pose proof (probe_post_null_reach _ _ _ Hpost) as Hreach.
    destruct Hpost as (d & _ & _ & Hi & _). destruct t1 as [tbl n c]. simpl in *.
    by apply Inv_fill.
Qed.

Lemma insert_result_Consistent (t1 : CustomHashTable) (k : K) (v : V) (r : probe_result) :
  Consistent t1 → check_key k = true → probe_post t1 k r →
  Consistent (insert_result t1 k v r).
Proof.
  intros [HInv Huniq Hvalid] Hk Hpost.
  split; [by apply insert_result_Inv | |]; destruct r as [i e|i|]; try done; simpl.
  - destruct Hpost as (d & _ & _ & Hi & _). by eapply (unique_keys_update _ i e).
  - pose proof (probe_post_fresh t1 k i HInv Hpost) as Hfresh.
    destruct Hpost as (d & _ & _ & Hi & _). by apply unique_keys_fill.
  - destruct Hpost as (d & _ & _ & Hi & _). by eapply (valid_keys_update _ i e).
  - destruct Hpost as (d & _ & _ & Hi & _). by apply valid_keys_fill.
Qed.

(** [insert] as an update of the map. *)
Lemma insert_result_maps_to (t1 : CustomHashTable) (k : K) (v : V) (r : probe_result) :
  Consistent t1 → probe_post t1 k r → r ≠ PWrap →
  ∀ k' v', maps_to (insert_result t1 k v r) k' v' ↔
           (k' = k ∧ v' = v) ∨ (k' ≠ k ∧ maps_to t1 k' v').
Proof.
  intros [HInv Huniq Hvalid] Hpost Hr k' v'. destruct r as [i e|i|]; [| |done].
  - destruct (probe_post_found _ _ _ _ Hpost) as [Hie Hke].
    pose proof (lookup_lt_Some _ _ _ (proj1 Hie)) as Hi.
    unfold maps_to. simpl. split.
    + intros (j & e0 & Hj & <- & <-).
      destruct (live_at_write_inv _ _ _ _ _ Hi Hj) as [[-> He0]|[Hne Hj']].
      * injection He0 as <-. by left.
      * right. split; [|by exists j, e0].
        intros Hk0. apply Hne. apply (Huniq j i e0 e); [done | done | congruence].
    + intros [[-> ->]|(Hne & j & e0 & Hj & <- & <-)].
      * exists i, (mkEntry (key e) v (in_use e)). split_and!; [|done..].
        apply live_at_write_same; [done | apply Hie].
      * exists j, e0. split_and!; [|done..]. apply live_at_write_other; [|done].
        intros ->. destruct Hie as [Hie _], Hj as [Hj _]. congruence.
  - pose proof (probe_post_fresh t1 k i HInv Hpost) as Hfresh.
    destruct Hpost as (d & _ & _ & Hi & _).
    pose proof (lookup_lt_Some _ _ _ Hi) as Hilt.
    unfold maps_to. simpl. split.
    + intros (j & e0 & Hj & <- & <-).
      destruct (live_at_fill_inv _ _ _ _ Hi _ _ Hj) as [[-> ->]|[Hne Hj']].
      * by left.
      * right. split; [by eapply Hfresh | by exists j, e0].
    + intros [[-> ->]|(Hne & j & e0 & Hj & <- & <-)].
      * exists i, (mkEntry k v true). split_and!; [|done..].
        by apply live_at_write_same.
      * exists j, e0. split_and!; [|done..]. apply live_at_write_other; [|done].
        intros ->. destruct Hj as [Hj _]. congruence.
Qed.

Lemma resize_maps_to (t t1 : CustomHashTable) :
  (∀ e, (∃ j, live_at (table t1) j e) ↔ (∃ i, live_at (table t) i e)) →
  ∀ k v, maps_to t1 k v ↔ maps_to t k v.
Proof.
  intros Hlive k v. unfold maps_to. split.
  - intros (j & e & Hj & Hk & Hv). destruct (proj1 (Hlive e)) as [i Hi]; [by exists j|].
    by exists i, e.
  - intros (i & e & Hi & Hk & Hv). destruct (proj2 (Hlive e)) as [j Hj]; [by exists i|].
    by exists j, e.
Qed.

(** [insert], when it returns, returns [true] and has updated the map. *)
Lemma insert_spec (depth : nat) (k : K) (v : V) (t : CustomHashTable)
    (b : bool) (t' : CustomHashTable) :
  Consistent t → check_key k = true →
  insert depth k v t = Ret (b, t') →
  b = true ∧ Consistent t' ∧
  ∀ k' v', maps_to t' k' v' ↔ (k' = k ∧ v' = v) ∨ (k' ≠ k ∧ maps_to t k' v').
Proof.
  intros [HInv Huniq Hvalid] Hk Hins.
  destruct (resize_Inv t HInv) as (t1 & Hres & HInv1 & _ & _ & _ & Hlive & Hu & Hv).
  destruct (insert_cases depth k v t HInv Hk) as (t1' & r & Hres' & _ & Hpost & Hins').
  rewrite Hres in Hres'. injection Hres' as <-.
  rewrite Hins in Hins'.
  assert (Consistent t1) as Hcons1 by (split; auto).
  assert (r ≠ PWrap ∧ b = true ∧ t' = insert_result t1 k v r) as (Hr & -> & ->).
  { destruct r; [| |done]; injection Hins' as -> ->; done. }
  split_and!; [done | by apply insert_result_Consistent |].
  intros k' v'. rewrite (insert_result_maps_to t1 k v r Hcons1 Hpost Hr).
  by rewrite (resize_maps_to t t1 Hlive).
Qed.

(** ** [find] *)

Lemma find_probe (k : K) (t : CustomHashTable) :
  well_formed t → check_key k = true →
  ∃ r, probe_post t k r ∧ find k t = Ret (find_exit_of r, t).
Proof.
  intros Hwf Hk. destruct (probe_total t k Hwf) as (r & Hprobe & Hpost).
  exists r. split; [done|]. unfold find.
  rewrite Hk, (hash_wf _ _ Hwf). simpl. by rewrite find_loop_probe, Hprobe.
Qed.

Lemma maps_to_valid (t : CustomHashTable) (k : K) (v : V) :
  valid_keys (table t) → maps_to t k v → check_key k = true.
Proof. intros Hvalid (i & e & Hi & <- & _). by eapply Hvalid. Qed.

Lemma maps_to_functional (t : CustomHashTable) (k : K) (v1 v2 : V) :
  unique_keys (table t) → maps_to t k v1 → maps_to t k v2 → v1 = v2.
Proof.
  intros Huniq (i & e1 & H1 & K1 & <-) (j & e2 & H2 & K2 & <-).
  assert (i = j) as -> by (apply (Huniq i j e1 e2); [done | done | congruence]).
  destruct H1 as [H1 _], H2 as [H2 _]. congruence.
Qed.

Lemma probe_post_maps_to (t : CustomHashTable) (k : K) (r : probe_result) (v : V) :
  Consistent t → probe_post t k r → find_exit_of r = Some v ↔ maps_to t k v.
Proof.
  intros [HInv Huniq Hvalid] Hpost. split.
  - destruct r as [i e| |]; simpl; [|done..]. intros [= <-].
    destruct (probe_post_found _ _ _ _ Hpost) as [Hie Hke]. by exists i, e.
  - intros (j & e0 & Hj & Hk0 & Hv0).
    destruct (probe_post_live t k r j e0 Hpost Hj Hk0) as (i & e & ->).
    { rewrite <- Hk0. by apply (inv_reach t HInv). }
    simpl. f_equal. destruct (probe_post_found _ _ _ _ Hpost) as [Hie Hke].
    apply (maps_to_functional t k); [done | by exists i, e | by exists j, e0].
Qed.

(** [find] returns in every consistent state, leaves it as it is, and
    reads the map. *)
Lemma find_spec (k : K) (t : CustomHashTable) :
  Consistent t →
  ∃ r, find k t = Ret (r, t) ∧ ∀ v, r = Some v ↔ maps_to t k v.
Proof.
  intros Hcons. destruct (check_key k) eqn:Hk.
  - destruct (find_probe k t (inv_wf t (cons_inv t Hcons)) Hk) as (r & Hpost & ->).
    exists (find_exit_of r). split; [done|]. intros v. by apply probe_post_maps_to.
  - exists None. unfold find. rewrite Hk. split; [done|]. intros v. split; [done|].
    intros Hm. apply (maps_to_valid t k v (cons_valid t Hcons)) in Hm. congruence.
Qed.

(** ** [remove] *)

Lemma remove_probe (k : K) (t : CustomHashTable) :
  well_formed t → check_key k = true →
  ∃ r, probe_post t k r ∧ remove k t = Ret (remove_exit_of t r).
Proof.
  intros Hwf Hk. destruct (probe_total t k Hwf) as (r & Hprobe & Hpost).
  exists r. split; [done|]. unfold remove.
  rewrite Hk, (hash_wf _ _ Hwf). simpl. by rewrite remove_loop_probe, Hprobe.
Qed.

(** [item_count--] is executed with a positive count. *)
Lemma remove_no_underflow (t : CustomHashTable) (i : nat) (e : Entry) :
  Inv t → live_at (table t) i e → 0 < item_count t.
Proof.
  intros HInv [Hi He]. rewrite (inv_count t HInv).
  by apply (count_pos_of_lookup is_live (table t) i (Some e)).
Qed.

Lemma tombstone_Consistent (t : CustomHashTable) (i : nat) (e : Entry) :
  Consistent t → live_at (table t) i e →
  Consistent (mkTable (<[i := Some (mkEntry (key e) (value e) false)]> (table t))
                      (table_size t) (pred (item_count t))).
Proof.
  intros [HInv Huniq Hvalid] Hie.
  pose proof (remove_no_underflow t i e HInv Hie) as Hpos.
  destruct Hie as [Hi He]. destruct t as [tbl n c]. simpl in *.
  split; simpl.
  - eapply (Inv_update tbl i e); [done | done | done | done |].
    rewrite He. simpl. lia.
  - by eapply (unique_keys_update _ i e).
  - by eapply (valid_keys_update _ i e).
Qed.

Lemma tombstone_maps_to (t : CustomHashTable) (i : nat) (e : Entry) :
  Consistent t → live_at (table t) i e →
  ∀ k' v',
    maps_to (mkTable (<[i := Some (mkEntry (key e) (value e) false)]> (table t))
                     (table_size t) (pred (item_count t))) k' v' ↔
    k' ≠ key e ∧ maps_to t k' v'.
Proof.
  intros [HInv Huniq Hvalid] Hie k' v'.
  pose proof (lookup_lt_Some _ _ _ (proj1 Hie)) as Hi.
  unfold maps_to. simpl. split.
  - intros (j & e0 & Hj & <- & <-).
    destruct (live_at_write_inv _ _ _ _ _ Hi Hj) as [[-> He0]|[Hne Hj']].
    + injection He0 as <-. destruct Hj as [_ Hj]. done.
    + split; [|by exists j, e0].
      intros Hk0. apply Hne. by apply (Huniq j i e0 e).
  - intros (Hne & j & e0 & Hj & <- & <-).
    exists j, e0. split_and!; [|done..]. apply live_at_write_other; [|done].
    intros ->. destruct Hie as [Hie _], Hj as [Hj _]. congruence.
Qed.

(** [remove] returns in every consistent state; [true] exactly when the
    key is in the map, and then the slot is a tombstone. *)
Lemma remove_spec (k : K) (t : CustomHashTable) :
  Consistent t →
  (¬ has_key t k ∧ remove k t = Ret (false, t)) ∨
  (∃ i e, live_at (table t) i e ∧ key e = k ∧
          remove k t =
          Ret (true, mkTable (<[i := Some (mkEntry (key e) (value e) false)]> (table t))
                             (table_size t) (pred (item_count t)))).
Proof.
  intros Hcons. destruct (check_key k) eqn:Hk.
  - destruct (remove_probe k t (inv_wf t (cons_inv t Hcons)) Hk) as (r & Hpost & ->).
    destruct r as [i e|i|] eqn:Hr.
    + right. destruct (probe_post_found _ _ _ _ Hpost) as [Hie Hke]. by exists i, e.
    + left. split; [|done]. intros [v Hv].
      apply (probe_post_maps_to t k (PNull i) v Hcons Hpost) in Hv. done.
    + left. split; [|done]. intros [v Hv].
      apply (probe_post_maps_to t k PWrap v Hcons Hpost) in Hv. done.
  - left. unfold remove. rewrite Hk. split; [|done]. intros [v Hv].
    apply (maps_to_valid t k v (cons_valid t Hcons)) in Hv. congruence.
Qed.

(** ** Sequences of calls *)

Lemma insert_invalid (depth : nat) (k : K) (v : V) (t : CustomHashTable) :
  check_key k = false → insert depth k v t = Ret (false, t).
Proof. intros Hk. rewrite insert_unfold, Hk. done. Qed.

Lemma find_invalid (k : K) (t : CustomHashTable) :
  check_key k = false → find k t = Ret (None, t).
Proof. intros Hk. unfold find. by rewrite Hk. Qed.

Lemma remove_invalid (k : K) (t : CustomHashTable) :
  check_key k = false → remove k t = Ret (false, t).
Proof. intros Hk. unfold remove. by rewrite Hk. Qed.

Lemma step_spec (depth : nat) (o : op) (t t' : CustomHashTable) :
  Consistent t → step depth o t = Ret t' →
  Consistent t' ∧
  (∀ k, ¬ touches k o → ∀ v, maps_to t' k v ↔ maps_to t k v) ∧
  (∀ k, ¬ inserts k o → ∀ v, maps_to t' k v → maps_to t k v).
Proof.
  intros Hcons Hstep. destruct o as [k0 v0|k0|k0|]; simpl in Hstep.
  - apply bind_Ret_inv in Hstep as ([b t1] & Hins & [= <-]). simpl.
    destruct (check_key k0) eqn:Hk0.
    + destruct (insert_spec depth k0 v0 t b t1 Hcons Hk0 Hins) as (_ & Hcons1 & Hmap).
      split_and!; [done | |].
      * intros k Hk v. rewrite Hmap. simpl in Hk. split.
        -- intros [[-> _]|[_ Hm]]; [done | done].
        -- intros Hm. right. split; [congruence | done].
      * intros k Hk v. rewrite Hmap. simpl in Hk.
        intros [[-> _]|[_ Hm]]; [done | done].
    + rewrite (insert_invalid depth k0 v0 t Hk0) in Hins. injection Hins as <- <-.
      split_and!; [done | done | tauto].
  - destruct (find_spec k0 t Hcons) as (r & Hfind & _).
    rewrite Hfind in Hstep. simpl in Hstep. injection Hstep as <-.
    split_and!; [done | done | tauto].
  - destruct (remove_spec k0 t Hcons) as [[_ Hrem]|(i & e & Hie & Hke & Hrem)];
      rewrite Hrem in Hstep; simpl in Hstep; injection Hstep as <-.
    + split_and!; [done | done | tauto].
    + split_and!.
      * by apply tombstone_Consistent.
      * intros k Hk v. rewrite (tombstone_maps_to t i e Hcons Hie). simpl in Hk.
        split; [tauto | ]. intros Hm. split; [congruence | done].
      * intros k _ v. rewrite (tombstone_maps_to t i e Hcons Hie). tauto.
  - injection Hstep as <-. split_and!; [done | done | tauto].
Qed.

Lemma run_spec (depth : nat) (ops : list op) (t t' : CustomHashTable) :
  Consistent t → run depth ops t = Ret t' →
  Consistent t' ∧
  (∀ k, Forall (λ o, ¬ touches k o) ops → ∀ v, maps_to t' k v ↔ maps_to t k v) ∧
  (∀ k, Forall (λ o, ¬ inserts k o) ops → ∀ v, maps_to t' k v → maps_to t k v).
Proof.
  revert t. induction ops as [|o ops IH]; intros t Hcons Hrun; simpl in Hrun.
  - injection Hrun as <-. split_and!; [done | done | tauto].
  - apply bind_Ret_inv in Hrun as (t1 & Hstep & Hrun).
    destruct (step_spec depth o t t1 Hcons Hstep) as (Hcons1 & Hsame1 & Hless1).
    destruct (IH t1 Hcons1 Hrun) as (Hcons' & Hsame & Hless).
    split_and!; [done | |].
    + intros k Hall v. apply Forall_cons_1 in Hall as [Ho Hops].
      rewrite (Hsame k Hops v). by apply Hsame1.
    + intros k Hall v Hm. apply Forall_cons_1 in Hall as [Ho Hops].
      apply (Hless1 k Ho v). by apply (Hless k Hops v).
Qed.

Lemma new_Inv (initial_size : nat) : 0 < initial_size → Inv (new initial_size).
Proof.
  intros Hpos. split; simpl.
  - split; simpl; [apply length_replicate | done].
  - by rewrite count_replicate_None.
  - intros i e [Hi _]. apply lookup_replicate in Hi as [? _]. done.
Qed.

Lemma new_Consistent (initial_size : nat) :
  0 < initial_size → Consistent (new initial_size).
Proof.
  intros Hpos. split; [by apply new_Inv | |].
  - intros i j e1 e2 [Hi _]. apply lookup_replicate in Hi as [? _]. done.
  - intros i e [Hi _]. apply lookup_replicate in Hi as [? _]. done.
Qed.

Lemma new_has_no_key (initial_size : nat) (k : K) : ¬ has_key (new initial_size) k.
Proof. intros (v & i & e & [Hi _] & _). apply lookup_replicate in Hi as [? _]. done. Qed.

Lemma reachable_Consistent (t : CustomHashTable) : reachable t → Consistent t.
Proof.
  induction 1 as [n Hn|depth o t t' _ IH Hstep].
  - by apply new_Consistent.
  - by destruct (step_spec depth o t t' IH Hstep).
Qed.

Lemma run_app (depth : nat) (ops1 ops2 : list op) (t : CustomHashTable) :
  run depth (ops1 ++ ops2) t = run depth ops1 t ≫= run depth ops2.
Proof.
  revert t. induction ops1 as [|o ops1 IH]; intros t; [done|].
  simpl. destruct (step depth o t) as [t1| |]; simpl; [apply IH | done..].
Qed.

Lemma reachable_Inv (t : CustomHashTable) : reachable t → Inv t.
Proof. intros Hreach. by apply cons_inv, reachable_Consistent. Qed.

Lemma reachable_run (depth : nat) (ops : list op) (t t' : CustomHashTable) :
  reachable t → run depth ops t = Ret t' → reachable t'.
Proof.
  revert t. induction ops as [|o ops IH]; intros t Hreach Hrun; simpl in Hrun.
  - by injection Hrun as <-.
  - apply bind_Ret_inv in Hrun as (t1 & Hstep & Hrun).
    apply (IH t1); [|done]. by eapply reachable_step.
Qed.

(** ** No fault in a well-formed state *)

Lemma find_no_fault (k : K) (t : CustomHashTable) (f : fault) :
  well_formed t → find k t ≠ Fault f.
Proof.
  intros Hwf. destruct (check_key k) eqn:Hk.
  - destruct (find_probe k t Hwf Hk) as (r & _ & ->). done.
  - by rewrite find_invalid.
Qed.

Lemma remove_no_fault (k : K) (t : CustomHashTable) (f : fault) :
  well_formed t → remove k t ≠ Fault f.
Proof.
  intros Hwf. destruct (check_key k) eqn:Hk.
  - destruct (remove_probe k t Hwf Hk) as (r & _ & ->). done.
  - by rewrite remove_invalid.
Qed.

Lemma insert_no_fault (depth : nat) (k : K) (v : V) (t : CustomHashTable) (f : fault) :
  well_formed t → insert depth k v t ≠ Fault f.
Proof.
  revert t. induction depth as [|depth IH]; intros t Hwf;
    (destruct (check_key k) eqn:Hk; [|by rewrite insert_invalid]).
  - destruct (insert_step 0 k v t Hwf Hk) as (t1 & r & _ & Hwf1 & _ & _ & ->).
    destruct r; try done.
    destruct (resize_well_formed t1 Hwf1) as (t2 & -> & _). done.
  - destruct (insert_step (S depth) k v t Hwf Hk) as (t1 & r & _ & Hwf1 & _ & _ & ->).
    destruct r; try done.
    destruct (resize_well_formed t1 Hwf1) as (t2 & -> & Hwf2). simpl. by apply IH.
Qed.

Lemma resize_Consistent (t : CustomHashTable) :
  Consistent t →
  ∃ t1, resize t = Ret t1 ∧ Consistent t1 ∧ item_count t1 = item_count t ∧
        ∀ k v, maps_to t1 k v ↔ maps_to t k v.
Proof.
  intros [HInv Huniq Hvalid].
  destruct (resize_Inv t HInv) as (t1 & Hres & HInv1 & Hc & _ & _ & Hlive & Hu & Hv).
  exists t1. split_and!; [done | split; auto | done | by apply resize_maps_to].
Qed.

Lemma insert_true_valid (depth : nat) (k : K) (v : V) (t t' : CustomHashTable) :
  insert depth k v t = Ret (true, t') → check_key k = true.
Proof.
  intros Hins. destruct (check_key k) eqn:Hk; [done|].
  by rewrite insert_invalid in Hins.
Qed.

Lemma find_of_maps_to (t : CustomHashTable) (k : K) (v : V) :
  Consistent t → maps_to t k v → find k t = Ret (Some v, t).
Proof.
  intros Hcons Hm. destruct (find_spec k t Hcons) as (r & -> & Hr).
  by rewrite (proj2 (Hr v) Hm).
Qed.

Lemma find_of_no_key (t : CustomHashTable) (k : K) :
  Consistent t → ¬ has_key t k → find k t = Ret (None, t).
Proof.
  intros Hcons Hno. destruct (find_spec k t Hcons) as (r & -> & Hr).
  destruct r as [v|]; [|done]. exfalso. apply Hno. exists v. by apply Hr.
Qed.

(** When [insert] returns: exactly when the key is in the map or the table
    that [resize] returns has a null slot. *)
Lemma insert_returns_iff (depth : nat) (k : K) (v : V) (t : CustomHashTable) :
  Inv t → check_key k = true →
  ∃ t1, resize t = Ret t1 ∧
    ((∃ t', insert depth k v t = Ret (true, t')) ↔
     (has_key t k ∨ ∃ i, table t1 !! i = Some None)) ∧
    (¬ (has_key t k ∨ ∃ i, table t1 !! i = Some None) →
     ∀ depth', insert depth' k v t = Diverge).
Proof.
  intros HInv Hk.
  destruct (resize_Inv t HInv) as (t1 & Hres & HInv1 & _ & _ & _ & Hlive & _).
  pose proof (resize_maps_to t t1 Hlive) as Hmap.
  exists t1. split; [done|].
  assert (∀ depth' r, probe_post t1 k r →
            insert depth' k v t = match r with
                                  | PWrap => Diverge
                                  | _ => Ret (true, insert_result t1 k v r)
                                  end →
            (r ≠ PWrap ↔ (has_key t k ∨ ∃ i, table t1 !! i = Some None))) as Hiff.
  { intros depth' r Hpost _. split.
    - destruct r as [i e|i|]; [| |done]; intros _.
      + left. destruct (probe_post_found _ _ _ _ Hpost) as [Hie Hke].
        exists (value e). apply Hmap. by exists i, e.
      + right. destruct Hpost as (d & _ & _ & Hi & _). by exists i.
    - intros Hok ->. destruct Hok as [[v0 Hv0]|[i Hi]].
      + apply Hmap in Hv0 as (j & e & Hj & Hke & _).
        destruct (probe_post_live t1 k PWrap j e Hpost Hj Hke) as (? & ? & ?); [|done].
        rewrite <- Hke. by apply (inv_reach t1 HInv1).
      + destruct (probe_post_wrap t1 k i Hpost) as (e & He & _); [|congruence].
        rewrite <- (proj1 (inv_wf t1 HInv1)). by eapply lookup_lt_Some. }
  split.
  - destruct (insert_cases depth k v t HInv Hk) as (t1' & r & Hres' & _ & Hpost & Hins).
    rewrite Hres in Hres'. injection Hres' as <-.
    rewrite <- (Hiff depth r Hpost Hins). rewrite Hins. split.
    + intros [t' Ht'] ->. done.
    + intros Hr. destruct r; [| |done]; eauto.
  - intros Hnot depth'.
    destruct (insert_cases depth' k v t HInv Hk) as (t1' & r & Hres' & _ & Hpost & Hins).
    rewrite Hres in Hres'. injection Hres' as <-.
    destruct r; [| |done]; exfalso; apply Hnot, (Hiff depth' _ Hpost Hins); done.
Qed.

(** * The claims *)

(** C1: after [insert k v] has returned [true], [find k] returns [v], and
    it still does after any sequence of calls that returned and that
    neither removes nor inserts [k]; each [insert] of the sequence may grow
    the table. *)
Theorem insert_then_find (t : CustomHashTable) (depth : nat) (k : K) (v : V)
    (t1 : CustomHashTable) :
  reachable t →
  insert depth k v t = Ret (true, t1) →
  find k t1 = Ret (Some v, t1) ∧
  ∀ depth' ops t2,
    Forall (λ o, ¬ touches k o) ops →
    run depth' ops t1 = Ret t2 →
    find k t2 = Ret (Some v, t2).
Proof.
  intros Hreach Hins. pose proof (reachable_Consistent t Hreach) as Hcons.
  pose proof (insert_true_valid _ _ _ _ _ Hins) as Hk.
  destruct (insert_spec depth k v t true t1 Hcons Hk Hins) as (_ & Hcons1 & Hmap).
  assert (maps_to t1 k v) as Hm by (apply Hmap; by left).
  split; [by apply find_of_maps_to|].
  intros depth' ops t2 Hops Hrun.
  destruct (run_spec depth' ops t1 t2 Hcons1 Hrun) as (Hcons2 & Hsame & _).
  apply find_of_maps_to; [done|]. by apply (Hsame k Hops v).
Qed.

(** C3: [resize] returns; it leaves the table as it is when
    [item_count * 2 <= table_size], and otherwise builds a table of twice
    the size that holds the live entries of the old one, each where probing
    for its key reaches it, and no tombstone; the count is the same.
    [insert] with a valid key runs it before the probe: the table it
    returns has the size [resize] chose. *)
Theorem resize_growth (t : CustomHashTable) :
  Inv t →
  ∃ t1, resize t = Ret t1 ∧
    (item_count t * 2 ≤ table_size t → t1 = t) ∧
    (table_size t < item_count t * 2 →
       table_size t1 = 2 * table_size t ∧
       length (table t1) = 2 * table_size t ∧
       (∀ j s, table t1 !! j = Some s → is_tombstone s = false) ∧
       count is_occupied (table t1) = count is_live (table t)) ∧
    item_count t1 = item_count t ∧
    (∀ e, (∃ j, live_at (table t1) j e) ↔ (∃ i, live_at (table t) i e)) ∧
    (∀ j e, live_at (table t1) j e → reach (table t1) (table_size t1) (key e) j) ∧
    (∀ depth k v b t', check_key k = true → insert depth k v t = Ret (b, t') →
       table_size t' = table_size t1).
Proof.
  intros HInv.
  destruct (resize_Inv t HInv) as (t1 & Hres & HInv1 & Hc & _ & _ & Hlive & _).
  exists t1. split; [done|].
  split_and!; try done.
  - intros Hsmall. rewrite (resize_noop t Hsmall) in Hres. by injection Hres.
  - intros Hbig.
    destruct (resize_cases t (inv_wf t HInv)) as [[Hsmall _]|(_ & nt & Hres' & Hnt)]; [lia|].
    rewrite Hres in Hres'. injection Hres' as ->. simpl.
    split_and!.
    + lia.
    + rewrite (rh_length _ _ _ Hnt). lia.
    + intros j s. by eapply rehashed_no_tombstone.
    + apply (rh_count _ _ _ Hnt).
  - apply (inv_reach t1 HInv1).
  - intros depth k v b t' Hk Hins.
    destruct (insert_cases depth k v t HInv Hk) as (t1' & r & Hres' & _ & _ & Hins').
    rewrite Hres in Hres'. injection Hres' as <-.
    rewrite Hins in Hins'. destruct r; [| |done]; by injection Hins' as _ ->.
Qed.

(** C4: [remove k] returns; it returns [true] exactly when a live slot
    holds [k]; then that slot keeps its key and value with [in_use] false,
    the count is one less, and [find k] reports not-found, also after any
    calls that returned and do not insert [k]; when it returns [false] the
    state is the one before. *)
Theorem remove_tombstones (t : CustomHashTable) (k : K) :
  reachable t →
  ∃ b t', remove k t = Ret (b, t') ∧
    (b = true ↔ ∃ i e, live_at (table t) i e ∧ key e = k) ∧
    (b = false → t' = t ∧ fst (size t') = fst (size t)) ∧
    (b = true →
       (∃ i e, live_at (table t) i e ∧ key e = k ∧
               table t' = <[i := Some (mkEntry (key e) (value e) false)]> (table t) ∧
               table_size t' = table_size t) ∧
       S (item_count t') = item_count t ∧
       find k t' = Ret (None, t') ∧
       ∀ depth ops t2,
         Forall (λ o, ¬ inserts k o) ops →
         run depth ops t' = Ret t2 →
         find k t2 = Ret (None, t2)).
Proof.
  intros Hreach. pose proof (reachable_Consistent t Hreach) as Hcons.
  destruct (remove_spec k t Hcons) as [[Hno Hrem]|(i & e & Hie & Hke & Hrem)].
  - exists false, t. split_and!; [done | | done | done].
    split; [done|]. intros (i & e & Hie & Hke). exfalso. apply Hno.
    exists (value e), i, e. done.
  - eexists true, _. split; [exact Hrem|].
    pose proof (tombstone_Consistent t i e Hcons Hie) as Hcons'.
    pose proof (tombstone_maps_to t i e Hcons Hie) as Hmap.
    pose proof (remove_no_underflow t i e (cons_inv t Hcons) Hie) as Hpos.
    assert (¬ has_key
              (mkTable (<[i := Some (mkEntry (key e) (value e) false)]> (table t))
                       (table_size t) (pred (item_count t))) k) as Hgone.
    { intros [v Hv]. apply Hmap in Hv as [Hne _]. congruence. }
    split_and!; [split; [by exists i, e | done] | done |].
    intros _. split_and!.
    + by exists i, e.
    + simpl. lia.
    + by apply find_of_no_key.
    + intros depth ops t2 Hops Hrun.
      destruct (run_spec depth ops _ t2 Hcons' Hrun) as (Hcons2 & _ & Hless).
      apply find_of_no_key; [done|]. intros [v Hv]. apply Hgone.
      exists v. by apply (Hless k Hops v).
Qed.

(** C5: [insert k v] on a table where a live slot holds [k] returns [true]
    and writes [v] into that slot of the table [resize] returns: the count
    and the number of live slots are the same, no two live slots hold the
    same key, and [find k] returns [v]. *)
Theorem insert_existing_overwrites (t : CustomHashTable) (depth : nat) (k : K) (v : V) :
  reachable t → has_key t k →
  ∃ t1 i e t',
    resize t = Ret t1 ∧ live_at (table t1) i e ∧ key e = k ∧
    insert depth k v t = Ret (true, t') ∧
    table t' = <[i := Some (mkEntry k v true)]> (table t1) ∧
    table_size t' = table_size t1 ∧
    fst (size t') = fst (size t) ∧
    count is_live (table t') = count is_live (table t) ∧
    unique_keys (table t') ∧
    find k t' = Ret (Some v, t').
Proof.
  intros Hreach [v0 Hv0]. pose proof (reachable_Consistent t Hreach) as Hcons.
  pose proof (maps_to_valid t k v0 (cons_valid t Hcons) Hv0) as Hk.
  destruct (resize_Consistent t Hcons) as (t1 & Hres & Hcons1 & Hc & Hmap).
  destruct (insert_cases depth k v t (cons_inv t Hcons) Hk)
    as (t1' & r & Hres' & HInv1 & Hpost & Hins).
  rewrite Hres in Hres'. injection Hres' as <-.
  apply Hmap in Hv0 as (j & e0 & Hj & Hk0 & _).
  destruct (probe_post_live t1 k r j e0 Hpost Hj Hk0) as (i & e & ->).
  { rewrite <- Hk0. by apply (inv_reach t1 HInv1). }
  destruct (probe_post_found _ _ _ _ Hpost) as [Hie Hke].
  pose proof (insert_result_Consistent t1 k v (PFound i e) Hcons1 Hk Hpost) as Hcons'.
  pose proof (insert_spec depth k v t true _ Hcons Hk Hins) as (_ & _ & Hmap').
  exists t1, i, e, (insert_result t1 k v (PFound i e)).
  split_and!; try done.
  - simpl. destruct Hie as [_ ->]. by rewrite Hke.
  - rewrite <- (inv_count _ (cons_inv _ Hcons')), <- (inv_count _ (cons_inv _ Hcons)).
    done.
  - apply (cons_unique _ Hcons').
  - apply find_of_maps_to; [done|]. apply Hmap'. by left.
Qed.

(** C6, as the code has it: when [Key] is [int*] or [char*], a null key
    makes [insert] return [false], [find] report not-found and [remove]
    return [false], each with the state it was given and with no fault. *)
Theorem null_key_rejected (t : CustomHashTable) (depth : nat) (k : K) (v : V) :
  Key_is_int_ptr || Key_is_char_ptr = true →
  is_nullptr k = true →
  insert depth k v t = Ret (false, t) ∧
  find k t = Ret (None, t) ∧
  remove k t = Ret (false, t).
Proof.
  intros Hptr Hnull.
  assert (check_key k = false) as Hk by (unfold check_key; by rewrite Hptr, Hnull).
  split_and!; [by apply insert_invalid | by apply find_invalid | by apply remove_invalid].
Qed.

Lemma lookup_tombstone_write (tbl : list slot) (i i0 : nat) (e : Entry) (s0 s : slot) :
  tbl !! i = Some (Some e) → in_use e = false →
  tbl !! i0 = Some s0 → is_tombstone s0 = false →
  <[i0 := s]> tbl !! i = Some (Some e).
Proof.
  intros Hi He Hi0 Hs0. rewrite list_lookup_insert_ne; [done|].
  intros Heq. rewrite Heq in Hi0. unfold slot in *. rewrite Hi in Hi0.
  injection Hi0 as <-.
  simpl in Hs0. by rewrite He in Hs0.
Qed.

(** C7: a tombstone stays as it is.  [insert] writes a slot that probing
    for the key reaches over occupied slots only (tombstones among them)
    and that is a live slot with the key or a null slot, never a tombstone;
    when [insert] does not grow the table, and in [remove] and [find], every
    tombstone keeps its place, key and value; the table that [resize]
    builds when it grows has no tombstone. *)
Theorem tombstone_never_reused (t : CustomHashTable) :
  reachable t →
  (∀ depth k v b t', check_key k = true → insert depth k v t = Ret (b, t') →
     ∃ t1 i, resize t = Ret t1 ∧ reach (table t1) (table_size t1) k i ∧
       ((∃ e, live_at (table t1) i e ∧ key e = k ∧
              table t' = <[i := Some (mkEntry k v true)]> (table t1)) ∨
        (table t1 !! i = Some None ∧
         table t' = <[i := Some (mkEntry k v true)]> (table t1))) ∧
       ∀ j e, table t1 !! j = Some (Some e) → in_use e = false →
              table t' !! j = Some (Some e)) ∧
  (∀ depth k v b t', item_count t * 2 ≤ table_size t →
     insert depth k v t = Ret (b, t') →
     ∀ j e, table t !! j = Some (Some e) → in_use e = false →
            table t' !! j = Some (Some e)) ∧
  (∀ k b t', remove k t = Ret (b, t') →
     ∀ j e, table t !! j = Some (Some e) → in_use e = false →
            table t' !! j = Some (Some e)) ∧
  (∀ k r t', find k t = Ret (r, t') → t' = t) ∧
  (∀ t1, table_size t < item_count t * 2 → resize t = Ret t1 →
     ∀ j s, table t1 !! j = Some s → is_tombstone s = false).
Proof.
  intros Hreach. pose proof (reachable_Consistent t Hreach) as Hcons.
  pose proof (cons_inv t Hcons) as HInv.
  assert (∀ depth k v b t', check_key k = true → insert depth k v t = Ret (b, t') →
     ∃ t1 i, resize t = Ret t1 ∧ reach (table t1) (table_size t1) k i ∧
       ((∃ e, live_at (table t1) i e ∧ key e = k ∧
              table t' = <[i := Some (mkEntry k v true)]> (table t1)) ∨
        (table t1 !! i = Some None ∧
         table t' = <[i := Some (mkEntry k v true)]> (table t1))) ∧
       ∀ j e, table t1 !! j = Some (Some e) → in_use e = false →
              table t' !! j = Some (Some e)) as Hinsert.
  { intros depth k v b t' Hk Hins.
    destruct (insert_cases depth k v t HInv Hk) as (t1 & r & Hres & HInv1 & Hpost & Hins').
    rewrite Hins in Hins'. destruct r as [i e|i|]; [| |done]; injection Hins' as -> ->.
    - destruct (probe_post_found _ _ _ _ Hpost) as [Hie Hke].
      exists t1, i. split_and!; [done | by eapply probe_post_found_reach | |].
      + left. exists e. split_and!; [done..|]. simpl. destruct Hie as [_ ->]. by rewrite Hke.
      + intros j e0 Hj He0. simpl.
        apply (lookup_tombstone_write _ _ _ _ (Some e)); [done | done | apply Hie |].
        simpl. destruct Hie as [_ ->]. done.
    - pose proof (probe_post_null_reach _ _ _ Hpost) as Hr.
      destruct Hpost as (d & _ & _ & Hi & _).
      exists t1, i. split_and!; [done | done | by right |].
      intros j e0 Hj He0. simpl.
      by apply (lookup_tombstone_write _ _ _ _ None). }
  split_and!.
  - exact Hinsert.
  - intros depth k v b t' Hsmall Hins j e Hj He.
    destruct (check_key k) eqn:Hk.
    + destruct (Hinsert depth k v b t' Hk Hins) as (t1 & i & Hres & _ & _ & Hkeep).
      rewrite (resize_noop t Hsmall) in Hres. injection Hres as <-. by apply Hkeep.
    + rewrite (insert_invalid depth k v t Hk) in Hins. by injection Hins as _ <-.
  - intros k b t' Hrem j e Hj He.
    destruct (remove_spec k t Hcons) as [[_ Hrem']|(i & e0 & Hie & Hke & Hrem')];
      rewrite Hrem in Hrem'; injection Hrem' as -> ->; [done|]. simpl.
    apply (lookup_tombstone_write _ _ _ _ (Some e0)); [done | done | apply Hie |].
    simpl. destruct Hie as [_ ->]. done.
  - intros k r t' Hfind. destruct (find_spec k t Hcons) as (r' & Hfind' & _).
    rewrite Hfind in Hfind'. by injection Hfind' as _ ->.
  - intros t1 Hbig Hres j s Hj.
    destruct (resize_cases t (inv_wf t HInv)) as [[Hsmall _]|(_ & nt & Hres' & Hnt)]; [lia|].
    rewrite Hres in Hres'. injection Hres' as ->. simpl in Hj.
    by eapply rehashed_no_tombstone.
Qed.

(** C8: the constructor with a positive capacity establishes, and [insert],
    [find], [remove] and [resize] keep, the invariant [Inv]: the vector has
    [table_size] slots, [item_count] is the number of live slots (so
    [item_count <= table_size]), and every live slot is met by probing for
    its key, one step at a time with wrap-around, before any null slot. *)
Theorem invariant_preserved (t : CustomHashTable) :
  Inv t →
  item_count t ≤ table_size t ∧
  (∀ depth k v b t', insert depth k v t = Ret (b, t') → Inv t') ∧
  (∀ k r t', find k t = Ret (r, t') → Inv t') ∧
  (∀ k b t', remove k t = Ret (b, t') → Inv t') ∧
  (∀ t', resize t = Ret t' → Inv t').
Proof.
  intros HInv. split_and!.
  - by apply Inv_count_le.
  - intros depth k v b t' Hins. destruct (check_key k) eqn:Hk.
    + destruct (insert_cases depth k v t HInv Hk) as (t1 & r & _ & HInv1 & Hpost & Hins').
      rewrite Hins in Hins'.
      destruct r; [| |done]; injection Hins' as _ ->;
        exact (insert_result_Inv t1 k v _ HInv1 Hpost).
    + rewrite (insert_invalid depth k v t Hk) in Hins. by injection Hins as _ <-.
  - intros k r t' Hfind. destruct (check_key k) eqn:Hk.
    + destruct (find_probe k t (inv_wf t HInv) Hk) as (r' & _ & Hfind').
      rewrite Hfind in Hfind'. by injection Hfind' as _ ->.
    + rewrite (find_invalid k t Hk) in Hfind. by injection Hfind as _ <-.
  - intros k b t' Hrem. destruct (check_key k) eqn:Hk.
    + destruct (remove_probe k t (inv_wf t HInv) Hk) as (r & Hpost & Hrem').
      rewrite Hrem in Hrem'. destruct r as [i e|i|]; simpl in Hrem';
        injection Hrem' as -> ->; [|done..].
      destruct (probe_post_found _ _ _ _ Hpost) as [Hie Hke].
      pose proof (remove_no_underflow t i e HInv Hie) as Hpos.
      destruct Hie as [Hi He]. destruct t as [tbl n c]. simpl in *.
      eapply (Inv_update tbl i e); [done | done | done | done |].
      rewrite He. simpl. lia.
    + rewrite (remove_invalid k t Hk) in Hrem. by injection Hrem as _ <-.
  - intros t' Hres. destruct (resize_Inv t HInv) as (t1 & Hres' & HInv1 & _).
    rewrite Hres in Hres'. by injection Hres' as ->.
Qed.

(** C9: in a table constructed with a positive capacity, and after any
    calls that returned, [insert], [find] and [remove] compute no remainder
    by zero and read or write no slot outside the vector.  The constructor
    takes the capacity 0 as well, and there the hash of every valid key is a
    remainder by zero. *)
Theorem accesses_in_bounds (t : CustomHashTable) (depth : nat) (k : K) (v : V) (f : fault) :
  reachable t →
  (length (table t) = table_size t ∧ 0 < table_size t) ∧
  insert depth k v t ≠ Fault f ∧ find k t ≠ Fault f ∧ remove k t ≠ Fault f ∧
  (check_key k = true →
     insert depth k v (new 0) = Fault DivByZero ∧
     find k (new 0) = Fault DivByZero ∧
     remove k (new 0) = Fault DivByZero).
Proof.
  intros Hreach. pose proof (inv_wf t (cons_inv t (reachable_Consistent t Hreach))) as Hwf.
  split_and!; [apply Hwf | apply Hwf | by apply insert_no_fault | by apply find_no_fault
              | by apply remove_no_fault |].
  intros Hk. split_and!.
  - rewrite insert_unfold, Hk. done.
  - unfold find. rewrite Hk. done.
  - unfold remove. rewrite Hk. done.
Qed.

(** C10: [find] and [size] return the table they were given, whatever the
    state and the key, so a second call returns the same result; in a
    reachable state [find] does return, and a call of [find] or [size]
    anywhere in a sequence of calls changes nothing of what the sequence
    leaves. *)
Theorem find_size_read_only (t : CustomHashTable) (k : K) :
  (∀ r t', find k t = Ret (r, t') → t' = t ∧ find k t' = Ret (r, t')) ∧
  snd (size t) = t ∧
  size (snd (size t)) = size t ∧
  (reachable t →
     (∃ r, find k t = Ret (r, t)) ∧
     ∀ depth ops1 ops2,
       run depth (ops1 ++ Find k :: ops2) t = run depth (ops1 ++ ops2) t ∧
       run depth (ops1 ++ Size :: ops2) t = run depth (ops1 ++ ops2) t).
Proof.
  split_and!; [|done|done|].
  - intros r t' Hfind. assert (t' = t) as ->; [|done].
    unfold find in Hfind. destruct (negb (check_key k)); [by injection Hfind|].
    apply bind_Ret_inv in Hfind as (i & _ & Hfind).
    apply bind_Ret_inv in Hfind as (r' & _ & Hfind). by injection Hfind.
  - intros Hreach. split.
    + destruct (find_spec k t (reachable_Consistent t Hreach)) as (r & Hr & _).
      by exists r.
    + intros depth ops1 ops2. rewrite !run_app.
      destruct (run depth ops1 t) as [t1| |] eqn:Hrun; [|done..]. simpl.
      pose proof (reachable_run depth ops1 t t1 Hreach Hrun) as Hreach1.
      destruct (find_spec k t1 (reachable_Consistent t1 Hreach1)) as (r & -> & _).
      done.
Qed.

(** * Further properties *)

(** ** Null slots and tombstones *)

Lemma count_occupied_lt (tbl : list slot) (i : nat) :
  tbl !! i = Some None → count is_occupied tbl < length tbl.
Proof.
  revert i. induction tbl as [|x tbl IH]; intros i Hi; [done|].
  rewrite count_cons. destruct i as [|i]; simpl in *.
  - injection Hi as ->. pose proof (count_le_length is_occupied tbl). simpl. slia.
  - specialize (IH i Hi). destruct (is_occupied x); simpl; slia.
Qed.

Lemma null_slot_iff (tbl : list slot) :
  (∃ i, tbl !! i = Some None) ↔ count is_occupied tbl < length tbl.
Proof.
  split; [intros [i Hi]; by eapply count_occupied_lt | apply free_slot_exists].
Qed.

Lemma no_tombstone_count (tbl : list slot) :
  no_tombstone tbl → count is_occupied tbl = count is_live tbl.
Proof.
  intros Hno. apply count_ext. intros j [e|] Hj; [|done].
  specialize (Hno j _ Hj). simpl in *. by destruct (in_use e).
Qed.

Lemma no_tombstone_write (tbl : list slot) (i : nat) (s : slot) :
  no_tombstone tbl → is_tombstone s = false → no_tombstone (<[i := s]> tbl).
Proof.
  intros Hno Hs j s' Hj. destruct (decide (i < length tbl)) as [Hi|Hi].
  - rewrite lookup_write in Hj by done. case_decide; [by injection Hj as <- | by eapply Hno].
  - rewrite list_insert_ge in Hj by lia. by eapply Hno.
Qed.

Lemma new_no_tombstone (initial_size : nat) : no_tombstone (table (new initial_size)).
Proof. intros j s Hj. apply lookup_replicate in Hj as [-> _]. done. Qed.

Lemma resize_no_tombstone (t t1 : CustomHashTable) :
  well_formed t → resize t = Ret t1 → no_tombstone (table t) → no_tombstone (table t1).
Proof.
  intros Hwf Hres Hno.
  destruct (resize_cases t Hwf) as [[_ Hres']|(_ & nt & Hres' & Hnt)];
    rewrite Hres in Hres'; injection Hres' as ->; [done|].
  intros j s. by eapply rehashed_no_tombstone.
Qed.

(** The table that [resize] returns has a null slot exactly when it was
    rebuilt or the old one had a null slot. *)
Lemma resize_null_slot (t t1 : CustomHashTable) :
  Inv t → resize t = Ret t1 →
  (∃ i, table t1 !! i = Some None) ↔
  (table_size t < item_count t * 2 ∨ count is_occupied (table t) < table_size t).
Proof.
  intros HInv Hres. pose proof (inv_wf t HInv) as [Hlen Hpos].
  destruct (resize_cases t (inv_wf t HInv)) as [[Hsmall Hres']|(Hbig & nt & Hres' & Hnt)];
    rewrite Hres in Hres'; injection Hres' as ->.
  - rewrite null_slot_iff, Hlen. split; [by right | intros [?|?]; [lia | done]].
  - simpl. split; [by left | intros _]. apply free_slot_exists.
    rewrite (rh_count _ _ _ Hnt), (rh_length _ _ _ Hnt).
    pose proof (count_le_length is_live (table t)). slia.
Qed.

(** [insert] returns exactly when the key is live, the table is more than
    half full, or a slot is null; otherwise it never returns. *)
Lemma insert_returns_pre (depth : nat) (k : K) (v : V) (t : CustomHashTable) :
  Inv t → check_key k = true →
  ((∃ t', insert depth k v t = Ret (true, t')) ↔
   (has_key t k ∨ table_size t < item_count t * 2 ∨
    count is_occupied (table t) < table_size t)) ∧
  (¬ (has_key t k ∨ table_size t < item_count t * 2 ∨
      count is_occupied (table t) < table_size t) →
   ∀ depth', insert depth' k v t = Diverge).
Proof.
  intros HInv Hk.
  destruct (insert_returns_iff depth k v t HInv Hk) as (t1 & Hres & Hiff & Hdiv).
  pose proof (resize_null_slot t t1 HInv Hres) as Hnull.
  split.
  - rewrite Hiff, Hnull. done.
  - intros Hnot. apply Hdiv. rewrite Hnull. done.
Qed.

Lemma insert_result_no_tombstone (t1 : CustomHashTable) (k : K) (v : V) (r : probe_result) :
  probe_post t1 k r → no_tombstone (table t1) →
  no_tombstone (table (insert_result t1 k v r)).
Proof.
  intros Hpost Hno. destruct r as [i e|i|]; simpl; [| |done].
  - apply no_tombstone_write; [done|].
    destruct (probe_post_found _ _ _ _ Hpost) as [[_ He] _]. simpl. by rewrite He.
  - by apply no_tombstone_write.
Qed.

(** Without tombstones [insert] finds a null slot or the key. *)
Lemma insert_no_tombstone (depth : nat) (k : K) (v : V) (t : CustomHashTable) :
  Inv t → no_tombstone (table t) → check_key k = true →
  ∃ t', insert depth k v t = Ret (true, t') ∧ no_tombstone (table t').
Proof.
  intros HInv Hno Hk.
  destruct (resize_Inv t HInv) as (t1 & Hres & HInv1 & _ & Hsmall & _).
  pose proof (resize_no_tombstone t t1 (inv_wf t HInv) Hres Hno) as Hno1.
  destruct (insert_cases depth k v t HInv Hk) as (t1' & r & Hres' & _ & Hpost & Hins).
  rewrite Hres in Hres'. injection Hres' as <-.
  assert (r ≠ PWrap) as Hr.
  { intros ->. destruct (free_slot_exists (table t1)) as [i Hi].
    - rewrite (no_tombstone_count _ Hno1), <- (inv_count t1 HInv1).
      destruct (inv_wf t1 HInv1) as [-> Hpos]. lia.
    - destruct (probe_post_wrap t1 k i Hpost) as (e & He & _); [|congruence].
      rewrite <- (proj1 (inv_wf t1 HInv1)). by eapply lookup_lt_Some. }
  exists (insert_result t1 k v r). split.
  - rewrite Hins. by destruct r.
  - by apply insert_result_no_tombstone.
Qed.

(** X1: in a reachable state [insert] of a valid key returns [true] exactly
    when the key is in a live slot, or [item_count * 2 > table_size] (the
    table is rebuilt), or some slot is null; in every other state it never
    returns. *)
Theorem insert_returns_exactly_when (t : CustomHashTable) (depth : nat) (k : K) (v : V) :
  reachable t → check_key k = true →
  ((∃ t', insert depth k v t = Ret (true, t')) ↔
   (has_key t k ∨ table_size t < item_count t * 2 ∨
    count is_occupied (table t) < table_size t)) ∧
  (¬ (has_key t k ∨ table_size t < item_count t * 2 ∨
      count is_occupied (table t) < table_size t) →
   ∀ depth', insert depth' k v t = Diverge).
Proof.
  intros Hreach Hk. apply insert_returns_pre; [by apply reachable_Inv | done].
Qed.

(** X2: in a reachable state without tombstones [insert] of a valid key
    returns [true], leaves no tombstone, and [find] returns the value. *)
Theorem insert_returns_without_tombstones (t : CustomHashTable) (depth : nat)
    (k : K) (v : V) :
  reachable t → no_tombstone (table t) → check_key k = true →
  ∃ t', insert depth k v t = Ret (true, t') ∧
        no_tombstone (table t') ∧
        find k t' = Ret (Some v, t').
Proof.
  intros Hreach Hno Hk. pose proof (reachable_Consistent t Hreach) as Hcons.
  destruct (insert_no_tombstone depth k v t (cons_inv t Hcons) Hno Hk) as (t' & Hins & Hno').
  exists t'. split_and!; [done | done |].
  destruct (insert_spec depth k v t true t' Hcons Hk Hins) as (_ & Hcons' & Hmap).
  apply find_of_maps_to; [done|]. apply Hmap. by left.
Qed.

(** A sequence of inserts into a table without tombstones returns, and the
    map it leaves is the old one overwritten by the last writes. *)
Lemma run_insert_ops (depth : nat) (kvs : list (K * V)) (t0 : CustomHashTable) :
  Consistent t0 → no_tombstone (table t0) →
  ∃ t, run depth (insert_ops kvs) t0 = Ret t ∧ Consistent t ∧ no_tombstone (table t) ∧
       ∀ k v, maps_to t k v ↔
              last_write kvs k = Some v ∨ (last_write kvs k = None ∧ maps_to t0 k v).
Proof.
  revert t0. induction kvs as [|[k' v'] kvs IH]; intros t0 Hcons Hno.
  - exists t0. split_and!; [done..|]. intros k v. simpl. split; [by right|].
    intros [?|[_ ?]]; done.
  - assert (∃ t1, insert depth k' v' t0 = Ret (check_key k', t1) ∧ Consistent t1 ∧
                  no_tombstone (table t1) ∧
                  ∀ k v, maps_to t1 k v ↔
                         (check_key k' = true ∧ k = k' ∧ v = v') ∨
                         ((check_key k' = true → k ≠ k') ∧ maps_to t0 k v))
      as (t1 & Hins & Hcons1 & Hno1 & Hmap1).
    { destruct (check_key k') eqn:Hk'.
      - destruct (insert_no_tombstone depth k' v' t0 (cons_inv t0 Hcons) Hno Hk')
          as (t1 & Hins & Hno1).
        destruct (insert_spec depth k' v' t0 true t1 Hcons Hk' Hins) as (_ & Hcons1 & Hmap).
        exists t1. split_and!; [done..|]. intros k v. rewrite Hmap. split.
        + intros [[-> ->]|[Hne Hm]]; [by left | right; split; [done | done]].
        + intros [(_ & -> & ->)|[Hne Hm]]; [by left | right; split; [by apply Hne | done]].
      - exists t0. rewrite insert_invalid by done. split_and!; [done..|].
        intros k v. split; [intros Hm; right; split; [done | done]|].
        intros [(? & _)|[_ Hm]]; done. }
    destruct (IH t1 Hcons1 Hno1) as (t & Hrun & Hcons' & Hno' & Hmap).
    exists t. split_and!; [|done..|].
    + simpl. rewrite Hins. simpl. exact Hrun.
    + intros k v. rewrite Hmap. simpl. destruct (last_write kvs k) as [v''|] eqn:Hlw.
      * split; [intros [?|[? _]]; [by left | done] | intros [?|[? _]]; [by left | done]].
      * rewrite Hmap1. destruct (check_key k') eqn:Hk'; simpl.
        -- case_bool_decide as Hkk.
           ++ subst k'. split.
              ** intros [?|[_ [(_ & _ & ->)|[Hne _]]]]; [done | by left | by destruct Hne].
              ** intros [[= <-]|[? _]]; [|done]. right. split; [done|]. by left.
           ++ split.
              ** intros [?|[_ [(_ & -> & _)|[_ Hm]]]]; [done | done | by right].
              ** intros [?|[_ Hm]]; [done|]. right. split; [done|]. right.
                 split; [intros _; congruence | done].
        -- split.
           ++ intros [?|[_ [(? & _)|[_ Hm]]]]; [done | done | by right].
           ++ intros [?|[_ Hm]]; [done|]. right. split; [done|]. by right.
Qed.

(** X3: any sequence of inserts into a table constructed with a positive
    capacity returns, whatever the hash function and however often the table
    grows, and then [find] returns for every key the value that the last
    insert of that key wrote, and not-found for a key that was not inserted
    (or that [check_key] rejects). *)
Theorem inserts_then_find (initial_size depth : nat) (kvs : list (K * V)) :
  0 < initial_size →
  ∃ t, run depth (insert_ops kvs) (new initial_size) = Ret t ∧
       no_tombstone (table t) ∧
       ∀ k, find k t = Ret (last_write kvs k, t).
Proof.
  intros Hpos.
  destruct (run_insert_ops depth kvs (new initial_size)) as (t & Hrun & Hcons & Hno & Hmap);
    [by apply new_Consistent | apply new_no_tombstone |].
  exists t. split_and!; [done..|]. intros k.
  assert (∀ v, ¬ maps_to (new initial_size) k v) as Hempty.
  { intros v (i & e & [Hi _] & _). apply lookup_replicate in Hi as [? _]. done. }
  destruct (last_write kvs k) as [v|] eqn:Hlw.
  - apply find_of_maps_to; [done|]. apply Hmap. by left.
  - apply find_of_no_key; [done|]. intros [v Hv]. apply Hmap in Hv as [Hs|[_ Hv]]; [congruence|].
    by apply (Hempty v).
Qed.

(** ** The keys of the table *)

Lemma length_live_keys (tbl : list slot) : length (live_keys tbl) = count is_live tbl.
Proof.
  induction tbl as [|[e|] tbl IH]; [done| |]; rewrite count_cons; simpl.
  - unfold live_keys in *. simpl. destruct (in_use e); simpl; by rewrite IH.
  - exact IH.
Qed.

Lemma elem_of_live_keys (tbl : list slot) (k : K) :
  k ∈ live_keys tbl ↔ ∃ i e, live_at tbl i e ∧ key e = k.
Proof.
  unfold live_keys. rewrite list_elem_of_omap. split.
  - intros (s & Hs & Hk). apply list_elem_of_lookup in Hs as [i Hi].
    destruct s as [e|]; [|done]. simpl in Hk. destruct (in_use e) eqn:He; [|done].
    injection Hk as <-. by exists i, e.
  - intros (i & e & [Hi He] & <-). exists (Some e). split.
    + apply list_elem_of_lookup. by exists i.
    + simpl. by rewrite He.
Qed.

Lemma unique_keys_tail (s : slot) (tbl : list slot) :
  unique_keys (s :: tbl) → unique_keys tbl.
Proof.
  intros Huniq i j e1 e2 [H1 L1] [H2 L2] Hk.
  assert (S i = S j) as [= ->]; [|done].
  by apply (Huniq (S i) (S j) e1 e2).
Qed.

Lemma NoDup_live_keys (tbl : list slot) : unique_keys tbl → NoDup (live_keys tbl).
Proof.
  induction tbl as [|s tbl IH]; intros Huniq; [constructor|].
  specialize (IH (unique_keys_tail _ _ Huniq)).
  destruct s as [e|]; [|exact IH]. unfold live_keys in *. simpl.
  destruct (in_use e) eqn:He; [|exact IH].
  constructor; [|exact IH]. intros Hin.
  apply (elem_of_live_keys tbl (key e)) in Hin as (i & e' & [Hi He'] & Hk).
  assert (S i = 0) as Heq; [|done].
  by apply (Huniq (S i) 0 e' e).
Qed.

(** X4: [size()] is the number of keys that [find] finds: the keys of the
    live slots are pairwise different, there are [size()] of them, and they
    are the keys for which [find] returns a value. *)
Theorem size_counts_keys (t : CustomHashTable) :
  reachable t →
  NoDup (live_keys (table t)) ∧
  length (live_keys (table t)) = fst (size t) ∧
  ∀ k, k ∈ live_keys (table t) ↔ ∃ v, find k t = Ret (Some v, t).
Proof.
  intros Hreach. pose proof (reachable_Consistent t Hreach) as Hcons.
  split_and!.
  - apply NoDup_live_keys, (cons_unique t Hcons).
  - rewrite length_live_keys. simpl. symmetry. apply (inv_count t (cons_inv t Hcons)).
  - intros k. rewrite elem_of_live_keys.
    destruct (find_spec k t Hcons) as (r & Hfind & Hr). rewrite Hfind. split.
    + intros (i & e & Hie & Hk). exists (value e).
      rewrite (proj2 (Hr (value e))); [done|]. by exists i, e.
    + intros [v [= ->]]. destruct (proj1 (Hr v) eq_refl) as (i & e & Hie & Hk & _).
      by exists i, e.
Qed.

(** ** What a call leaves alone *)

Lemma find_same (t t' : CustomHashTable) (k : K) :
  Consistent t → Consistent t' → (∀ v, maps_to t' k v ↔ maps_to t k v) →
  ∃ r, find k t = Ret (r, t) ∧ find k t' = Ret (r, t').
Proof.
  intros Hcons Hcons' Hsame.
  destruct (find_spec k t Hcons) as (r & Hfind & Hr).
  destruct (find_spec k t' Hcons') as (r' & Hfind' & Hr').
  exists r. split; [done|]. rewrite Hfind'. f_equal. f_equal.
  destruct r' as [v'|].
  - symmetry. apply Hr, Hsame, Hr'. done.
  - destruct r as [v|]; [|done]. apply Hr', Hsame, Hr. done.
Qed.

(** X5: an [insert] or a [remove] of [k] that returns, whether or not it
    grows the table, changes the result of [find] for no other key. *)
Theorem other_keys_untouched (t : CustomHashTable) (k k' : K) :
  reachable t → k' ≠ k →
  (∀ depth v b t', insert depth k v t = Ret (b, t') →
     ∃ r, find k' t = Ret (r, t) ∧ find k' t' = Ret (r, t')) ∧
  (∀ b t', remove k t = Ret (b, t') →
     ∃ r, find k' t = Ret (r, t) ∧ find k' t' = Ret (r, t')).
Proof.
  intros Hreach Hne. pose proof (reachable_Consistent t Hreach) as Hcons. split.
  - intros depth v b t' Hins.
    destruct (step_spec depth (Insert k v) t t' Hcons) as (Hcons' & Hsame & _).
    { simpl. by rewrite Hins. }
    apply find_same; [done | done |]. apply Hsame. simpl. congruence.
  - intros b t' Hrem.
    destruct (step_spec 0 (Remove k) t t' Hcons) as (Hcons' & Hsame & _).
    { simpl. by rewrite Hrem. }
    apply find_same; [done | done |]. apply Hsame. simpl. congruence.
Qed.

(** ** Capacity and load *)

Lemma step_table_size (depth : nat) (o : op) (t t' : CustomHashTable) :
  Consistent t → step depth o t = Ret t' →
  table_size t' = table_size t ∨
  (table_size t' = table_size t * 2 ∧ table_size t < item_count t * 2 ∧
   ∃ k v, o = Insert k v).
Proof.
  intros Hcons Hstep. destruct o as [k v|k|k|]; simpl in Hstep.
  - apply bind_Ret_inv in Hstep as ([b t1] & Hins & [= <-]). simpl.
    destruct (check_key k) eqn:Hk.
    + destruct (resize_Inv t (cons_inv t Hcons)) as (t1' & Hres & _ & _ & _ & Hsize & _).
      destruct (insert_cases depth k v t (cons_inv t Hcons) Hk)
        as (t1'' & r & Hres' & _ & _ & Hins').
      rewrite Hres in Hres'. injection Hres' as <-. rewrite Hins in Hins'.
      assert (table_size t1 = table_size t1') as ->.
      { destruct r; [| |done]; by injection Hins' as _ ->. }
      rewrite Hsize. destruct (Nat.ltb_spec (table_size t) (item_count t * 2)).
      * right. eauto.
      * by left.
    + rewrite (insert_invalid depth k v t Hk) in Hins. injection Hins as _ <-. by left.
  - destruct (find_spec k t Hcons) as (r & Hfind & _).
    rewrite Hfind in Hstep. injection Hstep as <-. by left.
  - destruct (remove_spec k t Hcons) as [[_ Hrem]|(i & e & _ & _ & Hrem)];
      rewrite Hrem in Hstep; injection Hstep as <-; by left.
  - injection Hstep as <-. by left.
Qed.

Lemma run_table_size (depth : nat) (ops : list op) (t t' : CustomHashTable) :
  Consistent t → run depth ops t = Ret t' → ∃ j, table_size t' = table_size t * 2 ^ j.
Proof.
  revert t. induction ops as [|o ops IH]; intros t Hcons Hrun; simpl in Hrun.
  - injection Hrun as <-. exists 0. simpl. lia.
  - apply bind_Ret_inv in Hrun as (t1 & Hstep & Hrun).
    destruct (step_spec depth o t t1 Hcons Hstep) as (Hcons1 & _).
    destruct (IH t1 Hcons1 Hrun) as [j Hj].
    destruct (step_table_size depth o t t1 Hcons Hstep) as [Heq|(Heq & _)].
    + exists j. by rewrite Hj, Heq.
    + exists (S j). rewrite Hj, Heq. simpl. lia.
Qed.

(** X6: the capacity only ever doubles, and only in [insert]: after any
    calls that returned, [table_size] is the capacity given to the
    constructor times a power of two, and the vector has that many slots. *)
Theorem capacity_is_initial_times_power_of_two (initial_size depth : nat)
    (ops : list op) (t : CustomHashTable) :
  0 < initial_size →
  run depth ops (new initial_size) = Ret t →
  (∃ j, table_size t = initial_size * 2 ^ j) ∧
  length (table t) = table_size t ∧
  ∀ depth' o t',
    step depth' o t = Ret t' →
    table_size t' = table_size t ∨
    (table_size t' = table_size t * 2 ∧ ∃ k v, o = Insert k v).
Proof.
  intros Hpos Hrun. pose proof (new_Consistent initial_size Hpos) as Hcons0.
  destruct (run_spec depth ops _ t Hcons0 Hrun) as (Hcons & _).
  split_and!.
  - apply (run_table_size depth ops _ t Hcons0 Hrun).
  - apply (inv_wf t (cons_inv t Hcons)).
  - intros depth' o t' Hstep.
    destruct (step_table_size depth' o t t' Hcons Hstep) as [?|(? & _ & ?)]; eauto.
Qed.

Lemma step_load (depth : nat) (o : op) (t t' : CustomHashTable) :
  Consistent t → item_count t * 2 ≤ table_size t + 2 → step depth o t = Ret t' →
  item_count t' * 2 ≤ table_size t' + 2.
Proof.
  intros Hcons Hload Hstep. destruct o as [k v|k|k|]; simpl in Hstep.
  - apply bind_Ret_inv in Hstep as ([b t1] & Hins & [= <-]). simpl.
    destruct (check_key k) eqn:Hk.
    + destruct (resize_Inv t (cons_inv t Hcons)) as (t1' & Hres & _ & _ & Hsmall & _).
      destruct (insert_cases depth k v t (cons_inv t Hcons) Hk)
        as (t1'' & r & Hres' & _ & _ & Hins').
      rewrite Hres in Hres'. injection Hres' as <-. rewrite Hins in Hins'.
      destruct r; [| |done]; injection Hins' as _ ->; simpl; lia.
    + rewrite (insert_invalid depth k v t Hk) in Hins. by injection Hins as _ <-.
  - destruct (find_spec k t Hcons) as (r & Hfind & _).
    rewrite Hfind in Hstep. by injection Hstep as <-.
  - destruct (remove_spec k t Hcons) as [[_ Hrem]|(i & e & _ & _ & Hrem)];
      rewrite Hrem in Hstep; injection Hstep as <-; [done|]. simpl. lia.
  - by injection Hstep as <-.
Qed.

(** X7: the table is never more than half full by more than one entry: in
    every reachable state [item_count * 2 <= table_size + 2], and right
    after [resize] [item_count * 2 <= table_size]. *)
Theorem load_factor_bound (t : CustomHashTable) :
  reachable t →
  item_count t * 2 ≤ table_size t + 2 ∧
  ∀ t1, resize t = Ret t1 → item_count t1 * 2 ≤ table_size t1.
Proof.
  intros Hreach. split.
  - induction Hreach as [n Hn|depth o t t' Hreach IH Hstep]; [simpl; lia|].
    by apply (step_load depth o t t' (reachable_Consistent t Hreach)).
  - intros t1 Hres.
    destruct (resize_Inv t (reachable_Inv t Hreach)) as (t1' & Hres' & _ & _ & Hsmall & _).
    rewrite Hres in Hres'. by injection Hres' as ->.
Qed.

(** ** Inserting a key that is absent, and removing it again *)

Lemma no_key_of_empty (t : CustomHashTable) (k : K) :
  Inv t → item_count t = 0 → ¬ has_key t k.
Proof.
  intros HInv Hzero (v & i & e & Hie & _).
  pose proof (remove_no_underflow t i e HInv Hie). lia.
Qed.

(** [insert] of a valid key that is in no live slot, when it returns, has
    filled a null slot of the table [resize] returns. *)
Lemma insert_absent (depth : nat) (k : K) (v : V) (t t' : CustomHashTable) (b : bool) :
  Consistent t → check_key k = true → ¬ has_key t k →
  insert depth k v t = Ret (b, t') →
  ∃ t1 i, resize t = Ret t1 ∧ Consistent t1 ∧ table t1 !! i = Some None ∧
          (∀ j e, live_at (table t1) j e → key e ≠ k) ∧
          t' = mkTable (<[i := Some (mkEntry k v true)]> (table t1))
                       (table_size t1) (S (item_count t1)).
Proof.
  intros Hcons Hk Hno Hins.
  destruct (resize_Consistent t Hcons) as (t1 & Hres & Hcons1 & Hc & Hmap).
  destruct (insert_cases depth k v t (cons_inv t Hcons) Hk)
    as (t1' & r & Hres' & HInv1 & Hpost & Hins').
  rewrite Hres in Hres'. injection Hres' as <-. rewrite Hins in Hins'.
  destruct r as [i e|i|]; [| |done].
  - exfalso. apply Hno. destruct (probe_post_found _ _ _ _ Hpost) as [Hie Hke].
    exists (value e). apply Hmap. by exists i, e.
  - injection Hins' as _ ->.
    pose proof (probe_post_fresh t1 k i HInv1 Hpost) as Hfresh.
    destruct Hpost as (d & _ & _ & Hi & _). exists t1, i. done.
Qed.

Lemma remove_filled (k : K) (v : V) (t1 : CustomHashTable) (i : nat) :
  Consistent t1 → check_key k = true → table t1 !! i = Some None →
  (∀ j e, live_at (table t1) j e → key e ≠ k) →
  Consistent (mkTable (<[i := Some (mkEntry k v true)]> (table t1))
                      (table_size t1) (S (item_count t1))) →
  remove k (mkTable (<[i := Some (mkEntry k v true)]> (table t1))
                    (table_size t1) (S (item_count t1)))
  = Ret (true, mkTable (<[i := Some (mkEntry k v false)]> (table t1))
                       (table_size t1) (item_count t1)).
Proof.
  intros Hcons1 Hk Hi Hfresh Hcons'.
  destruct (remove_spec k _ Hcons') as [[Hno _]|(i' & e' & Hie' & Hke' & ->)].
  - exfalso. apply Hno. exists v, i, (mkEntry k v true). split_and!; [|done..].
    apply live_at_write_same; [by eapply lookup_lt_Some | done].
  - simpl in *. destruct (live_at_fill_inv _ _ _ _ Hi _ _ Hie') as [[-> ->]|[_ Hold]].
    + simpl. by rewrite list_insert_insert_eq.
    + exfalso. by apply (Hfresh i' e').
Qed.

(** X8: [insert] of an absent key followed by [remove] of it gives back the
    size and the result of [find] for every key, but not the table: the
    slot that was null is now a tombstone. *)
Theorem insert_remove_round_trip (t : CustomHashTable) (depth : nat) (k : K) (v : V)
    (t1 : CustomHashTable) :
  reachable t → ¬ has_key t k →
  insert depth k v t = Ret (true, t1) →
  ∃ t2, remove k t1 = Ret (true, t2) ∧
        fst (size t1) = S (fst (size t)) ∧
        fst (size t2) = fst (size t) ∧
        (∀ k', ∃ r, find k' t = Ret (r, t) ∧ find k' t2 = Ret (r, t2)) ∧
        ∃ t0 i, resize t = Ret t0 ∧ table t0 !! i = Some None ∧
                table t2 = <[i := Some (mkEntry k v false)]> (table t0) ∧
                table_size t2 = table_size t0.
Proof.
  intros Hreach Hno Hins. pose proof (reachable_Consistent t Hreach) as Hcons.
  pose proof (insert_true_valid _ _ _ _ _ Hins) as Hk.
  destruct (insert_spec depth k v t true t1 Hcons Hk Hins) as (_ & Hcons1 & Hmap1).
  destruct (insert_absent depth k v t t1 true Hcons Hk Hno Hins)
    as (t0 & i & Hres & Hcons0 & Hi & Hfresh & ->).
  destruct (resize_Consistent t Hcons) as (t0' & Hres' & _ & Hc & _).
  rewrite Hres in Hres'. injection Hres' as <-.
  pose proof (remove_filled k v t0 i Hcons0 Hk Hi Hfresh Hcons1) as Hrem.
  set (tf := mkTable (<[i := Some (mkEntry k v true)]> (table t0))
                     (table_size t0) (S (item_count t0))) in *.
  set (tt := mkTable (<[i := Some (mkEntry k v false)]> (table t0))
                     (table_size t0) (item_count t0)) in *.
  assert (live_at (table tf) i (mkEntry k v true)) as Hlive.
  { apply live_at_write_same; [by eapply lookup_lt_Some | done]. }
  exists tt. split; [exact Hrem|]. simpl. split_and!; [by rewrite Hc | done | |].
  - intros k'.
    destruct (step_spec 0 (Remove k) tf tt Hcons1) as (Hcons2 & _ & _).
    { simpl. rewrite Hrem. done. }
    apply find_same; [done | done |]. intros v'.
    pose proof (tombstone_maps_to tf i (mkEntry k v true) Hcons1 Hlive k' v') as Hmap2.
    simpl in Hmap2. rewrite list_insert_insert_eq in Hmap2.
    change (maps_to tt k' v' ↔ k' ≠ k ∧ maps_to tf k' v') in Hmap2.
    rewrite Hmap2, Hmap1. split.
    + intros [Hne [[? _]|[_ Hm]]]; done.
    + intros Hm. assert (k' ≠ k) as Hne by (intros ->; apply Hno; by exists v').
      split; [done|]. by right.
  - exists t0, i. done.
Qed.

(** X9: a [remove] that has returned leaves a table in which [remove] of
    the same key returns [false] and changes nothing. *)
Theorem remove_twice (t : CustomHashTable) (k : K) (b : bool) (t' : CustomHashTable) :
  reachable t → remove k t = Ret (b, t') → remove k t' = Ret (false, t').
Proof.
  intros Hreach Hrem. pose proof (reachable_Consistent t Hreach) as Hcons.
  destruct (step_spec 0 (Remove k) t t' Hcons) as (Hcons' & _ & _).
  { simpl. by rewrite Hrem. }
  destruct (remove_spec k t' Hcons') as [[_ Hrem']|(i' & e' & Hie' & Hke' & _)]; [done|].
  exfalso.
  destruct (remove_spec k t Hcons) as [[Hno Hrem0]|(i & e & Hie & Hke & Hrem0)];
    rewrite Hrem in Hrem0; injection Hrem0 as -> ->.
  - apply Hno. exists (value e'), i', e'. done.
  - assert (maps_to (mkTable (<[i := Some (mkEntry (key e) (value e) false)]> (table t))
                             (table_size t) (pred (item_count t))) k (value e')) as Hm
      by (by exists i', e').
    apply (tombstone_maps_to t i e Hcons Hie) in Hm as [Hne _]. congruence.
Qed.

(** X10: [remove] returns [true] exactly when [find] finds the key, and the
    tombstone it leaves keeps the key and the value that [find] returned. *)
Theorem remove_agrees_with_find (t : CustomHashTable) (k : K) :
  reachable t →
  ∃ r b t', find k t = Ret (r, t) ∧ remove k t = Ret (b, t') ∧
            (b = true ↔ is_Some r) ∧
            (∀ v, r = Some v →
               ∃ i, table t !! i = Some (Some (mkEntry k v true)) ∧
                    table t' = <[i := Some (mkEntry k v false)]> (table t)).
Proof.
  intros Hreach. pose proof (reachable_Consistent t Hreach) as Hcons.
  destruct (find_spec k t Hcons) as (r & Hfind & Hr).
  destruct (remove_spec k t Hcons) as [[Hno Hrem]|(i & e & Hie & Hke & Hrem)].
  - assert (r = None) as ->.
    { destruct r as [v|]; [|done]. exfalso. apply Hno. exists v. by apply Hr. }
    exists None, false, t. split_and!; [done | done | | done].
    split; [done | by intros [? ?]].
  - assert (r = Some (value e)) as ->.
    { apply Hr. by exists i, e. }
    eexists _, true, _. split_and!; [done | exact Hrem | done |].
    intros v [= <-]. exists i. destruct e as [k0 v0 u0]. destruct Hie as [Hi Hu].
    simpl in *. subst. done.
Qed.

Lemma new_find_remove (initial_size : nat) (k : K) :
  0 < initial_size →
  find k (new initial_size) = Ret (None, new initial_size) ∧
  remove k (new initial_size) = Ret (false, new initial_size).
Proof.
  intros Hpos. pose proof (new_Consistent initial_size Hpos) as Hcons.
  pose proof (new_has_no_key initial_size k) as Hno.
  split; [by apply find_of_no_key|].
  destruct (remove_spec k _ Hcons) as [[_ Hrem]|(i & e & Hie & Hke & _)]; [done|].
  exfalso. apply Hno. exists (value e), i, e. done.
Qed.

(** X11: a table constructed with a positive capacity is empty: [find]
    reports not-found and [remove] returns [false] for every key, both
    leaving the table as constructed, and [size()] is 0. *)
Theorem fresh_table_is_empty (initial_size : nat) (k : K) :
  0 < initial_size →
  find k (new initial_size) = Ret (None, new initial_size) ∧
  remove k (new initial_size) = Ret (false, new initial_size) ∧
  fst (size (new initial_size)) = 0.
Proof.
  intros Hpos. destruct (new_find_remove initial_size k Hpos) as [Hfind Hrem].
  split_and!; done.
Qed.

(** X12: [resize] is idempotent in reachable states: after one call a
    second one changes nothing (the call on the retry path of [insert] is
    such a second call), and an [insert] of a valid key does the same on the
    table before and after [resize]. *)
Theorem resize_idempotent (t t1 : CustomHashTable) :
  reachable t → resize t = Ret t1 →
  resize t1 = Ret t1 ∧
  ∀ depth k v, check_key k = true → insert depth k v t1 = insert depth k v t.
Proof.
  intros Hreach Hres.
  destruct (resize_Inv t (reachable_Inv t Hreach)) as (t1' & Hres' & _ & _ & Hsmall & _).
  rewrite Hres in Hres'. injection Hres' as <-.
  pose proof (resize_noop t1 Hsmall) as Hnoop. split; [done|].
  intros depth k v Hk. rewrite !insert_unfold, Hk, Hres, Hnoop. done.
Qed.

(** ** Tombstones fill the table *)

(** One round [insert(k, v); remove(k);] in a table with no live slot and a
    null slot: the null slot becomes a tombstone. *)
Lemma churn_round (depth : nat) (k : K) (v : V) (t0 : CustomHashTable) :
  Consistent t0 → check_key k = true → item_count t0 = 0 →
  count is_occupied (table t0) < table_size t0 →
  ∃ t2, run depth [Insert k v; Remove k] t0 = Ret t2 ∧ Consistent t2 ∧
        item_count t2 = 0 ∧ table_size t2 = table_size t0 ∧
        count is_occupied (table t2) = S (count is_occupied (table t0)).
Proof.
  intros Hcons Hk Hzero Hfree. pose proof (cons_inv t0 Hcons) as HInv.
  pose proof (no_key_of_empty t0 k HInv Hzero) as Hno.
  destruct (proj2 (proj1 (insert_returns_pre depth k v t0 HInv Hk))) as [t1 Hins].
  { right. by right. }
  destruct (insert_spec depth k v t0 true t1 Hcons Hk Hins) as (_ & Hcons1 & _).
  destruct (insert_absent depth k v t0 t1 true Hcons Hk Hno Hins)
    as (t0' & i & Hres & Hcons0 & Hi & Hfresh & ->).
  rewrite (resize_noop t0) in Hres by lia. injection Hres as <-.
  pose proof (remove_filled k v t0 i Hcons Hk Hi Hfresh Hcons1) as Hrem.
  set (tf := mkTable (<[i := Some (mkEntry k v true)]> (table t0))
                     (table_size t0) (S (item_count t0))) in *.
  set (tt := mkTable (<[i := Some (mkEntry k v false)]> (table t0))
                     (table_size t0) (item_count t0)) in *.
  exists tt. split_and!; [| |done|done|].
  - simpl. rewrite Hins. simpl. rewrite Hrem. done.
  - destruct (step_spec 0 (Remove k) tf tt Hcons1) as (Hcons2 & _); [|done].
    simpl. by rewrite Hrem.
  - simpl. pose proof (count_insert is_occupied (table t0) i None
                         (Some (mkEntry k v false)) Hi) as Hci.
    change (Nat.b2n (is_occupied None)) with 0 in Hci.
    change (Nat.b2n (is_occupied (Some (mkEntry k v false)))) with 1 in Hci. slia.
Qed.

Lemma churn_run (depth : nat) (k : K) (v : V) (rounds : nat) (t0 : CustomHashTable) :
  Consistent t0 → check_key k = true → item_count t0 = 0 →
  count is_occupied (table t0) + rounds ≤ table_size t0 →
  ∃ t, run depth (churn k v rounds) t0 = Ret t ∧ Consistent t ∧
       item_count t = 0 ∧ table_size t = table_size t0 ∧
       count is_occupied (table t) = count is_occupied (table t0) + rounds.
Proof.
  revert t0. induction rounds as [|rounds IH]; intros t0 Hcons Hk Hzero Hroom.
  - exists t0. split_and!; [done..|]. lia.
  - destruct (churn_round depth k v t0 Hcons Hk Hzero) as (t2 & Hrun2 & Hcons2 & Hz2 & Hs2 & Ho2);
      [lia|].
    destruct (IH t2 Hcons2 Hk Hz2) as (t & Hrun & Hcons' & Hz & Hs & Ho); [lia|].
    exists t. split_and!; [|done|done|lia|lia].
    change (churn k v (S rounds)) with ([Insert k v; Remove k] ++ churn k v rounds).
    rewrite run_app, Hrun2. done.
Qed.

(** X13: whatever the capacity [n] and the hash function, [n] rounds of
    [insert(k, v); remove(k);] on a new table return and leave [size()] 0,
    the capacity [n] and a tombstone in every slot; after that no [insert]
    of any valid key returns. *)
Theorem churn_then_insert_never_returns (initial_size depth : nat) (k : K) (v : V) :
  0 < initial_size → check_key k = true →
  ∃ t, run depth (churn k v initial_size) (new initial_size) = Ret t ∧
       fst (size t) = 0 ∧ table_size t = initial_size ∧
       (∀ i, i < initial_size → is_tombstone <$> table t !! i = Some true) ∧
       ∀ depth' k' v', check_key k' = true → insert depth' k' v' t = Diverge.
Proof.
  intros Hpos Hk. pose proof (new_Consistent initial_size Hpos) as Hcons0.
  destruct (churn_run depth k v initial_size (new initial_size) Hcons0 Hk)
    as (t & Hrun & Hcons & Hzero & Hsize & Hocc); [done | |].
  { simpl. rewrite count_replicate_None by done. lia. }
  simpl in Hsize, Hocc. rewrite count_replicate_None in Hocc by done. simpl in Hocc.
  pose proof (cons_inv t Hcons) as HInv. destruct (inv_wf t HInv) as [Hlen _].
  exists t. split_and!; [done..| |].
  - intros i Hi. destruct (lookup_lt_is_Some_2 (table t) i) as [s Hs]; [slia|].
    rewrite Hs. simpl. f_equal. destruct s as [e|].
    + simpl. destruct (in_use e) eqn:He; [|done]. exfalso.
      pose proof (remove_no_underflow t i e HInv (conj Hs He)). lia.
    + exfalso. pose proof (count_occupied_lt _ _ Hs). slia.
  - intros depth' k' v' Hk'.
    apply (proj2 (insert_returns_pre depth' k' v' t HInv Hk')).
    intros [Hhas|[?|?]]; [|lia|lia]. by apply (no_key_of_empty t k' HInv Hzero).
Qed.

(** ** The size after [insert] *)

Lemma insert_count (depth : nat) (k : K) (v : V) (t t' : CustomHashTable) (b : bool) :
  Consistent t → check_key k = true → insert depth k v t = Ret (b, t') →
  (has_key t k ∧ item_count t' = item_count t) ∨
  (¬ has_key t k ∧ item_count t' = S (item_count t)).
Proof.
  intros Hcons Hk Hins.
  destruct (resize_Consistent t Hcons) as (t1 & Hres & Hcons1 & Hc & Hmap).
  destruct (insert_cases depth k v t (cons_inv t Hcons) Hk)
    as (t1' & r & Hres' & HInv1 & Hpost & Hins').
  rewrite Hres in Hres'. injection Hres' as <-. rewrite Hins in Hins'.
  destruct r as [i e|i|]; [| |done]; injection Hins' as _ ->; simpl; rewrite Hc.
  - left. split; [|done]. destruct (probe_post_found _ _ _ _ Hpost) as [Hie Hke].
    exists (value e). apply Hmap. by exists i, e.
  - right. split; [|done]. intros [v0 Hv0]. apply Hmap in Hv0 as (j & e & Hj & Hke & _).
    by apply (probe_post_fresh t1 k i HInv1 Hpost j e).
Qed.

Lemma insert_table_size (depth : nat) (k : K) (v : V) (t t' : CustomHashTable) (b : bool) :
  Inv t → check_key k = true → insert depth k v t = Ret (b, t') →
  table_size t' = if table_size t <? item_count t * 2
                  then table_size t * 2 else table_size t.
Proof.
  intros HInv Hk Hins.
  destruct (resize_Inv t HInv) as (t1 & Hres & _ & _ & _ & Hsize & _).
  destruct (insert_cases depth k v t HInv Hk) as (t1' & r & Hres' & _ & _ & Hins').
  rewrite Hres in Hres'. injection Hres' as <-. rewrite Hins in Hins'.
  rewrite <- Hsize. destruct r; [| |done]; by injection Hins' as _ ->.
Qed.

(** An [insert] of a valid key into a table without tombstones, with all
    that a caller can see of it. *)
Lemma insert_ok (depth : nat) (k : K) (v : V) (t : CustomHashTable) :
  Consistent t → no_tombstone (table t) → check_key k = true →
  ∃ t', insert depth k v t = Ret (true, t') ∧ Consistent t' ∧ no_tombstone (table t') ∧
        (∀ k' v', maps_to t' k' v' ↔ (k' = k ∧ v' = v) ∨ (k' ≠ k ∧ maps_to t k' v')) ∧
        ((has_key t k ∧ item_count t' = item_count t) ∨
         (¬ has_key t k ∧ item_count t' = S (item_count t))) ∧
        table_size t' = (if table_size t <? item_count t * 2
                         then table_size t * 2 else table_size t).
Proof.
  intros Hcons Hno Hk.
  destruct (insert_no_tombstone depth k v t (cons_inv t Hcons) Hno Hk) as (t' & Hins & Hno').
  destruct (insert_spec depth k v t true t' Hcons Hk Hins) as (_ & Hcons' & Hmap).
  exists t'. split_and!; [done..| |].
  - by eapply insert_count.
  - by apply (insert_table_size depth k v t t' true (cons_inv t Hcons) Hk).
Qed.

(** X14: an [insert] that returns [true] adds one to [size()] when [find]
    did not find the key before, and leaves [size()] as it is when it did;
    the capacity after it is twice the old one when
    [item_count * 2 > table_size] held before, and the old one otherwise. *)
Theorem insert_size_effect (t : CustomHashTable) (depth : nat) (k : K) (v : V)
    (t' : CustomHashTable) :
  reachable t → insert depth k v t = Ret (true, t') →
  ((find k t = Ret (None, t) ∧ fst (size t') = S (fst (size t))) ∨
   ((∃ v0, find k t = Ret (Some v0, t)) ∧ fst (size t') = fst (size t))) ∧
  table_size t' = (if table_size t <? item_count t * 2
                   then table_size t * 2 else table_size t).
Proof.
  intros Hreach Hins. pose proof (reachable_Consistent t Hreach) as Hcons.
  pose proof (insert_true_valid _ _ _ _ _ Hins) as Hk.
  split; [|by apply (insert_table_size depth k v t t' true (cons_inv t Hcons) Hk)].
  destruct (insert_count depth k v t t' true Hcons Hk Hins) as [[[v0 Hv0] Hc]|[Hno Hc]].
  - right. split; [|done]. exists v0. by apply find_of_maps_to.
  - left. split; [by apply find_of_no_key | done].
Qed.

(** ** Inserting new keys *)

Lemma run_fresh_inserts (depth : nat) (kvs : list (K * V)) (t0 : CustomHashTable) :
  Consistent t0 → no_tombstone (table t0) →
  NoDup kvs.*1 →
  (∀ k, k ∈ kvs.*1 → check_key k = true ∧ ¬ has_key t0 k) →
  ∃ t, run depth (insert_ops kvs) t0 = Ret t ∧
       item_count t = item_count t0 + length kvs ∧
       table_size t = grow (table_size t0) (item_count t0) (length kvs).
Proof.
  revert t0. induction kvs as [|[k v] kvs IH]; intros t0 Hcons Hno Hnodup Hfresh.
  - exists t0. split_and!; [done | simpl; lia | done].
  - simpl in Hnodup. apply NoDup_cons in Hnodup as [Hnotin Hnodup].
    destruct (Hfresh k) as [Hk Hnokey]; [simpl; left|].
    destruct (insert_ok depth k v t0 Hcons Hno Hk)
      as (t1 & Hins & Hcons1 & Hno1 & Hmap & Hcount & Hsize).
    destruct Hcount as [[? _]|[_ Hcount]]; [done|].
    destruct (IH t1 Hcons1 Hno1 Hnodup) as (t & Hrun & Hc & Hs).
    { intros k' Hk'. destruct (Hfresh k') as [Hvalid Hno']; [simpl; by right|].
      split; [done|]. intros [v' Hv']. apply Hmap in Hv' as [[-> _]|[_ Hv']]; [done|].
      apply Hno'. by exists v'. }
    exists t. split_and!.
    + simpl. rewrite Hins. simpl. exact Hrun.
    + rewrite Hc, Hcount. simpl. lia.
    + rewrite Hs, Hsize, Hcount. done.
Qed.

(** X15: inserting pairwise different valid keys into a new table returns,
    [size()] is then the number of keys, and the capacity is the one that
    [grow] computes from the initial capacity and that number alone: it
    depends neither on the keys nor on the hash function. *)
Theorem distinct_inserts_size_and_capacity (initial_size depth : nat) (kvs : list (K * V)) :
  0 < initial_size → NoDup kvs.*1 → (∀ k, k ∈ kvs.*1 → check_key k = true) →
  ∃ t, run depth (insert_ops kvs) (new initial_size) = Ret t ∧
       fst (size t) = length kvs ∧
       table_size t = grow initial_size 0 (length kvs).
Proof.
  intros Hpos Hnodup Hvalid.
  destruct (run_fresh_inserts depth kvs (new initial_size)) as (t & Hrun & Hc & Hs).
  - by apply new_Consistent.
  - apply new_no_tombstone.
  - done.
  - intros k Hk. split; [by apply Hvalid | apply new_has_no_key].
  - exists t. done.
Qed.

Lemma last_write_Some (kvs : list (K * V)) (k : K) (v : V) :
  last_write kvs k = Some v → (k, v) ∈ kvs ∧ check_key k = true.
Proof.
  induction kvs as [|[k' v'] kvs IH]; [done|]. cbn [last_write].
  destruct (last_write kvs k) as [v''|].
  - intros [= ->]. destruct (IH eq_refl) as [Hin Hk]. split; [by right | done].
  - destruct (check_key k') eqn:Hk'; [|done]. case_bool_decide as Hkk; [|done].
    intros [= ->]. subst k'. split; [by left | done].
Qed.

Lemma last_write_None (kvs : list (K * V)) (k : K) :
  last_write kvs k = None → check_key k = true → k ∉ kvs.*1.
Proof.
  induction kvs as [|[k' v'] kvs IH]; intros Hlw Hk; [by apply not_elem_of_nil|].
  cbn [last_write] in Hlw. destruct (last_write kvs k) as [v''|]; [done|].
  rewrite fmap_cons. apply not_elem_of_cons. split; [|by apply IH].
  intros Heq. simpl in Heq. subst k'. by rewrite Hk, bool_decide_eq_true_2 in Hlw.
Qed.

Lemma last_write_same_value (f : K → V) (keys : list K) (k : K) :
  k ∈ keys → check_key k = true →
  last_write ((λ i, (i, f i)) <$> keys) k = Some (f k).
Proof.
  intros Hin Hk. destruct (last_write _ k) as [v|] eqn:Hlw.
  - apply last_write_Some in Hlw as [Hkv _].
    apply list_elem_of_fmap in Hkv as (i & [= -> ->] & _). done.
  - exfalso. apply (last_write_None _ k Hlw Hk).
    apply list_elem_of_fmap. exists (k, f k). split; [done|].
    apply list_elem_of_fmap. by exists k.
Qed.

Lemma reachable_run_new (initial_size depth : nat) (ops : list op) (t : CustomHashTable) :
  0 < initial_size → run depth ops (new initial_size) = Ret t → reachable t.
Proof. intros Hpos. apply reachable_run. by apply reachable_new. Qed.

End CustomHashTable.

(** * The table at [CustomHashTable<int, std::string>] and at pointer keys *)

Open Scope string_scope.
Open Scope nat_scope.

Abbreviation int_insert := (insert (V:=string) std_hash_int false false (λ _ : nat, false)).
Abbreviation int_find := (find (V:=string) std_hash_int false false (λ _ : nat, false)).
Abbreviation int_remove := (remove (V:=string) std_hash_int false false (λ _ : nat, false)).
Abbreviation int_resize := (resize (V:=string) std_hash_int).
Abbreviation int_run := (run (V:=string) std_hash_int false false (λ _ : nat, false)).
Abbreviation int_reachable :=
  (reachable (V:=string) std_hash_int false false (λ _ : nat, false)).
Abbreviation int_new := (new (K:=nat) (V:=string)).
Abbreviation live k v := (Some (mkEntry (K:=nat) (V:=string) k v true)).
Abbreviation tombstone k v := (Some (mkEntry (K:=nat) (V:=string) k v false)).

(** The scenarios of the test driver with the identity as hash. *)

Example scenario_duplicate_insertions :
  int_run 0 [Insert 1 "one"; Insert 1 "updated_one"] (int_new 4)
  = Ret (mkTable [None; live 1 "updated_one"; None; None] 4 1)
  ∧ int_find 1 (mkTable [None; live 1 "updated_one"; None; None] 4 1)
    = Ret (Some "updated_one", mkTable [None; live 1 "updated_one"; None; None] 4 1).
Proof. split; reflexivity. Qed.

Example scenario_table_resizing :
  int_run 0 [Insert 1 "one"; Insert 2 "two"; Insert 3 "three"] (int_new 2)
  = Ret (mkTable [None; live 1 "one"; live 2 "two"; live 3 "three"] 4 3).
Proof. reflexivity. Qed.

Example scenario_empty_table_operations :
  int_find 1 (int_new 4) = Ret (None, int_new 4) ∧
  int_remove 1 (int_new 4) = Ret (false, int_new 4).
Proof. split; reflexivity. Qed.

Example scenario_single_entry :
  int_run 0 [Insert 1 "one"; Remove 1] (int_new 4)
  = Ret (mkTable [None; tombstone 1 "one"; None; None] 4 0)
  ∧ int_find 1 (mkTable [None; tombstone 1 "one"; None; None] 4 0)
    = Ret (None, mkTable [None; tombstone 1 "one"; None; None] 4 0).
Proof. split; reflexivity. Qed.

(** Twenty inserts from capacity 2 grow the table five times; every key is
    found with its value. *)
Example inserts_across_growth :
  ∃ t, int_run 0 ((λ k, Insert k "v") <$> seq 0 20) (int_new 2) = Ret t ∧
       table_size t = 64 ∧ item_count t = 20 ∧
       Forall (λ k, int_find k t = Ret (Some "v", t)) (seq 0 20).
Proof.
  eexists. split; [vm_compute; reflexivity|].
  split; [reflexivity|]. split; [reflexivity|].
  repeat constructor.
Qed.

(** An insert walks past a tombstone to the next null slot. *)
Example insert_past_tombstone :
  int_insert 0 5 "five" (mkTable [None; tombstone 1 "one"; None; None] 4 0)
  = Ret (true, mkTable [None; tombstone 1 "one"; live 5 "five"; None] 4 1).
Proof. reflexivity. Qed.

Lemma insert_then_find_witness :
  int_find 3 (mkTable [None; live 1 "one"; live 2 "two"; live 3 "three"] 4 3)
  = Ret (Some "three", mkTable [None; live 1 "one"; live 2 "two"; live 3 "three"] 4 3)
  ∧ ∀ depth' ops t2,
      Forall (λ o, ¬ touches 3 o) ops →
      int_run depth' ops (mkTable [None; live 1 "one"; live 2 "two"; live 3 "three"] 4 3)
      = Ret t2 →
      int_find 3 t2 = Ret (Some "three", t2).
Proof.
  apply (insert_then_find std_hash_int false false (λ _ : nat, false)
           (mkTable [live 2 "two"; live 1 "one"] 2 2) 0 3 "three").
  - apply (reachable_run_new _ _ _ _ 2 0 [Insert 1 "one"; Insert 2 "two"]);
      [lia | reflexivity].
  - reflexivity.
Defined.

(** C2: the probe of [insert] wraps when every slot is occupied and none is
    a live slot with the key; the [resize] that follows grows the table only
    when [item_count * 2 > table_size], which the [resize] at the start of
    the same call has just made false, and the retry meets the same table.
    Here the one slot of a table of capacity 1 is a tombstone: no nesting
    depth lets [insert] return. *)
Theorem insert_retry_never_returns :
  run std_hash_int false false (λ _ : nat, false) 0 [Insert 1 "one"; Remove 1] (new 1)
  = Ret (mkTable [tombstone 1 "one"] 1 0)
  ∧ reachable std_hash_int false false (λ _ : nat, false) (mkTable [tombstone 1 "one"] 1 0)
  ∧ check_key false false (λ _ : nat, false) 2 = true
  ∧ resize std_hash_int (mkTable [tombstone 1 "one"] 1 0)
    = Ret (mkTable [tombstone 1 "one"] 1 0)
  ∧ ∀ depth,
      insert std_hash_int false false (λ _ : nat, false) depth 2 "two"
             (mkTable [tombstone 1 "one"] 1 0)
      = Diverge.
Proof.
  split_and!.
  - reflexivity.
  - apply (reachable_run_new _ _ _ _ 1 0 [Insert 1 "one"; Remove 1]); [lia | reflexivity].
  - reflexivity.
  - reflexivity.
  - intros depth.
    apply insert_wrap_diverges; [reflexivity | reflexivity | reflexivity | simpl; lia].
Qed.

Lemma resize_growth_witness :
  ∃ t1, int_resize (mkTable [live 2 "two"; live 1 "one"] 2 2) = Ret t1 ∧
    (2 * 2 ≤ 2 → t1 = mkTable [live 2 "two"; live 1 "one"] 2 2) ∧
    (2 < 2 * 2 →
       table_size t1 = 2 * 2 ∧
       length (table t1) = 2 * 2 ∧
       (∀ j s, table t1 !! j = Some s → is_tombstone s = false) ∧
       count is_occupied (table t1) = count is_live [live 2 "two"; live 1 "one"]) ∧
    item_count t1 = 2 ∧
    (∀ e, (∃ j, live_at (table t1) j e) ↔ (∃ i, live_at [live 2 "two"; live 1 "one"] i e)) ∧
    (∀ j e, live_at (table t1) j e →
            reach std_hash_int (table t1) (table_size t1) (key e) j) ∧
    (∀ depth k v b t', check_key false false (λ _ : nat, false) k = true →
       int_insert depth k v (mkTable [live 2 "two"; live 1 "one"] 2 2) = Ret (b, t') →
       table_size t' = table_size t1).
Proof.
  apply (resize_growth std_hash_int false false (λ _ : nat, false)
           (mkTable [live 2 "two"; live 1 "one"] 2 2)).
  apply (reachable_Inv std_hash_int false false (λ _ : nat, false)).
  apply (reachable_run_new _ _ _ _ 2 0 [Insert 1 "one"; Insert 2 "two"]); [lia | reflexivity].
Defined.

Lemma remove_tombstones_witness :
  ∃ b t', int_remove 1 (mkTable [None; live 1 "one"; None; None] 4 1) = Ret (b, t') ∧
    (b = true ↔ ∃ i e, live_at [None; live 1 "one"; None; None] i e ∧ key e = 1) ∧
    (b = false → t' = mkTable [None; live 1 "one"; None; None] 4 1 ∧
                 fst (size t') = 1) ∧
    (b = true →
       (∃ i e, live_at [None; live 1 "one"; None; None] i e ∧ key e = 1 ∧
               table t' = <[i := Some (mkEntry (key e) (value e) false)]>
                            [None; live 1 "one"; None; None] ∧
               table_size t' = 4) ∧
       S (item_count t') = 1 ∧
       int_find 1 t' = Ret (None, t') ∧
       ∀ depth ops t2,
         Forall (λ o, ¬ inserts 1 o) ops →
         int_run depth ops t' = Ret t2 →
         int_find 1 t2 = Ret (None, t2)).
Proof.
  apply (remove_tombstones std_hash_int false false (λ _ : nat, false)
           (mkTable [None; live 1 "one"; None; None] 4 1) 1).
  apply (reachable_run_new _ _ _ _ 4 0 [Insert 1 "one"]); [lia | reflexivity].
Defined.

Lemma insert_existing_overwrites_witness :
  ∃ t1 i e t',
    int_resize (mkTable [None; live 1 "one"; None; None] 4 1) = Ret t1 ∧
    live_at (table t1) i e ∧ key e = 1 ∧
    int_insert 0 1 "updated_one" (mkTable [None; live 1 "one"; None; None] 4 1)
    = Ret (true, t') ∧
    table t' = <[i := live 1 "updated_one"]> (table t1) ∧
    table_size t' = table_size t1 ∧
    fst (size t') = 1 ∧
    count is_live (table t') = count is_live [None; live 1 "one"; None; None] ∧
    unique_keys (table t') ∧
    int_find 1 t' = Ret (Some "updated_one", t').
Proof.
  apply (insert_existing_overwrites std_hash_int false false (λ _ : nat, false)
           (mkTable [None; live 1 "one"; None; None] 4 1) 0 1 "updated_one").
  - apply (reachable_run_new _ _ _ _ 4 0 [Insert 1 "one"]); [lia | reflexivity].
  - exists "one", 1, (mkEntry 1 "one" true). repeat split.
Defined.

(** C6, as the claim states it, fails: [check_key] tests [key == nullptr]
    only when [Key] is [int*] or [char*].  With another pointer type as
    [Key] the null pointer is a key like any other: [insert] returns [true]
    and stores it, and [find] returns its value. *)
Lemma null_key_of_other_pointer_type_accepted :
  ptr_is_null 0 = true ∧
  insert (V:=string) std_hash_ptr false false ptr_is_null 0 0 "one" (new 4)
  = Ret (true, mkTable [live 0 "one"; None; None; None] 4 1) ∧
  find (V:=string) std_hash_ptr false false ptr_is_null 0
       (mkTable [live 0 "one"; None; None; None] 4 1)
  = Ret (Some "one", mkTable [live 0 "one"; None; None; None] 4 1) ∧
  remove (V:=string) std_hash_ptr false false ptr_is_null 0
         (mkTable [live 0 "one"; None; None; None] 4 1)
  = Ret (true, mkTable [tombstone 0 "one"; None; None; None] 4 0).
Proof. split_and!; reflexivity. Qed.

Lemma null_key_rejected_witness :
  insert (V:=string) std_hash_ptr true false ptr_is_null 0 0 "one" (new 4)
  = Ret (false, new 4) ∧
  find (V:=string) std_hash_ptr true false ptr_is_null 0 (new 4) = Ret (None, new 4) ∧
  remove (V:=string) std_hash_ptr true false ptr_is_null 0 (new 4) = Ret (false, new 4).
Proof.
  apply (null_key_rejected std_hash_ptr true false ptr_is_null (new 4) 0 0 "one");
    reflexivity.
Defined.

Lemma tombstone_never_reused_witness :
  (∀ depth k v b t', check_key false false (λ _ : nat, false) k = true →
     int_insert depth k v (mkTable [None; tombstone 1 "one"; None; None] 4 0) = Ret (b, t') →
     ∃ t1 i, int_resize (mkTable [None; tombstone 1 "one"; None; None] 4 0) = Ret t1 ∧
       reach std_hash_int (table t1) (table_size t1) k i ∧
       ((∃ e, live_at (table t1) i e ∧ key e = k ∧
              table t' = <[i := Some (mkEntry k v true)]> (table t1)) ∨
        (table t1 !! i = Some None ∧
         table t' = <[i := Some (mkEntry k v true)]> (table t1))) ∧
       ∀ j e, table t1 !! j = Some (Some e) → in_use e = false →
              table t' !! j = Some (Some e)) ∧
  (∀ depth k v b t', 0 * 2 ≤ 4 →
     int_insert depth k v (mkTable [None; tombstone 1 "one"; None; None] 4 0) = Ret (b, t') →
     ∀ j e, [None; tombstone 1 "one"; None; None] !! j = Some (Some e) → in_use e = false →
            table t' !! j = Some (Some e)) ∧
  (∀ k b t', int_remove k (mkTable [None; tombstone 1 "one"; None; None] 4 0) = Ret (b, t') →
     ∀ j e, [None; tombstone 1 "one"; None; None] !! j = Some (Some e) → in_use e = false →
            table t' !! j = Some (Some e)) ∧
  (∀ k r t', int_find k (mkTable [None; tombstone 1 "one"; None; None] 4 0) = Ret (r, t') →
     t' = mkTable [None; tombstone 1 "one"; None; None] 4 0) ∧
  (∀ t1, 4 < 0 * 2 →
     int_resize (mkTable [None; tombstone 1 "one"; None; None] 4 0) = Ret t1 →
     ∀ j s, table t1 !! j = Some s → is_tombstone s = false).
Proof.
  apply (tombstone_never_reused std_hash_int false false (λ _ : nat, false)
           (mkTable [None; tombstone 1 "one"; None; None] 4 0)).
  apply (reachable_run_new _ _ _ _ 4 0 [Insert 1 "one"; Remove 1]); [lia | reflexivity].
Defined.

Lemma invariant_preserved_witness :
  2 ≤ 2 ∧
  (∀ depth k v b t',
     int_insert depth k v (mkTable [live 2 "two"; live 1 "one"] 2 2) = Ret (b, t') →
     Inv std_hash_int t') ∧
  (∀ k r t', int_find k (mkTable [live 2 "two"; live 1 "one"] 2 2) = Ret (r, t') →
     Inv std_hash_int t') ∧
  (∀ k b t', int_remove k (mkTable [live 2 "two"; live 1 "one"] 2 2) = Ret (b, t') →
     Inv std_hash_int t') ∧
  (∀ t', int_resize (mkTable [live 2 "two"; live 1 "one"] 2 2) = Ret t' →
     Inv std_hash_int t').
Proof.
  apply (invariant_preserved std_hash_int false false (λ _ : nat, false)
           (mkTable [live 2 "two"; live 1 "one"] 2 2)).
  apply (reachable_Inv std_hash_int false false (λ _ : nat, false)).
  apply (reachable_run_new _ _ _ _ 2 0 [Insert 1 "one"; Insert 2 "two"]); [lia | reflexivity].
Defined.

Lemma accesses_in_bounds_witness :
  (length [live 2 "two"; live 1 "one"] = 2 ∧ 0 < 2) ∧
  int_insert 1 3 "three" (mkTable [live 2 "two"; live 1 "one"] 2 2) ≠ Fault OutOfBounds ∧
  int_find 3 (mkTable [live 2 "two"; live 1 "one"] 2 2) ≠ Fault OutOfBounds ∧
  int_remove 3 (mkTable [live 2 "two"; live 1 "one"] 2 2) ≠ Fault OutOfBounds ∧
  (check_key false false (λ _ : nat, false) 3 = true →
     int_insert 1 3 "three" (new 0) = Fault DivByZero ∧
     int_find 3 (new 0) = Fault DivByZero ∧
     int_remove 3 (new 0) = Fault DivByZero).
Proof.
  apply (accesses_in_bounds std_hash_int false false (λ _ : nat, false)
           (mkTable [live 2 "two"; live 1 "one"] 2 2) 1 3 "three" OutOfBounds).
  apply (reachable_run_new _ _ _ _ 2 0 [Insert 1 "one"; Insert 2 "two"]); [lia | reflexivity].
Defined.

(** ** The further properties at [CustomHashTable<int, std::string>] *)

Abbreviation int_step := (step (V:=string) std_hash_int false false (λ _ : nat, false)).
Abbreviation int_check_key := (check_key (K:=nat) false false (λ _ : nat, false)).

Lemma insert_returns_exactly_when_witness :
  ((∃ t', int_insert 0 2 "two" (mkTable [tombstone 1 "one"] 1 0) = Ret (true, t')) ↔
   (has_key (mkTable [tombstone 1 "one"] 1 0) 2 ∨ 1 < 0 * 2 ∨
    count is_occupied [tombstone 1 "one"] < 1)) ∧
  (¬ (has_key (mkTable [tombstone 1 "one"] 1 0) 2 ∨ 1 < 0 * 2 ∨
      count is_occupied [tombstone 1 "one"] < 1) →
   ∀ depth', int_insert depth' 2 "two" (mkTable [tombstone 1 "one"] 1 0) = Diverge).
Proof.
  apply (insert_returns_exactly_when std_hash_int false false (λ _ : nat, false)
           (mkTable [tombstone 1 "one"] 1 0) 0 2 "two").
  - apply (reachable_run_new _ _ _ _ 1 0 [Insert 1 "one"; Remove 1]); [lia | reflexivity].
  - reflexivity.
Defined.

Lemma insert_returns_without_tombstones_witness :
  ∃ t', int_insert 0 3 "three" (mkTable [live 2 "two"; live 1 "one"] 2 2) = Ret (true, t') ∧
        no_tombstone (table t') ∧
        int_find 3 t' = Ret (Some "three", t').
Proof.
  apply (insert_returns_without_tombstones std_hash_int false false (λ _ : nat, false)
           (mkTable [live 2 "two"; live 1 "one"] 2 2) 0 3 "three").
  - apply (reachable_run_new _ _ _ _ 2 0 [Insert 1 "one"; Insert 2 "two"]); [lia | reflexivity].
  - intros [|[|j]] s Hj; simpl in Hj; [by injection Hj as <-..|done].
  - reflexivity.
Defined.

Lemma inserts_then_find_witness :
  ∃ t, int_run 0 (insert_ops [(1, "one"); (2, "two"); (3, "three"); (1, "uno")]) (new 2)
       = Ret t ∧
       no_tombstone (table t) ∧
       ∀ k, int_find k t
            = Ret (last_write false false (λ _ : nat, false)
                     [(1, "one"); (2, "two"); (3, "three"); (1, "uno")] k, t).
Proof.
  apply (inserts_then_find std_hash_int false false (λ _ : nat, false) 2 0
           [(1, "one"); (2, "two"); (3, "three"); (1, "uno")]).
  lia.
Defined.

Lemma size_counts_keys_witness :
  NoDup (live_keys [None; tombstone 1 "one"; live 5 "five"; live 2 "two"]) ∧
  length (live_keys [None; tombstone 1 "one"; live 5 "five"; live 2 "two"])
  = fst (size (mkTable [None; tombstone 1 "one"; live 5 "five"; live 2 "two"] 4 2)) ∧
  ∀ k, k ∈ live_keys [None; tombstone 1 "one"; live 5 "five"; live 2 "two"] ↔
       ∃ v, int_find k (mkTable [None; tombstone 1 "one"; live 5 "five"; live 2 "two"] 4 2)
            = Ret (Some v, mkTable [None; tombstone 1 "one"; live 5 "five"; live 2 "two"] 4 2).
Proof.
  apply (size_counts_keys std_hash_int false false (λ _ : nat, false)
           (mkTable [None; tombstone 1 "one"; live 5 "five"; live 2 "two"] 4 2)).
  apply (reachable_run_new _ _ _ _ 4 0
           [Insert 1 "one"; Remove 1; Insert 5 "five"; Insert 2 "two"]); [lia | reflexivity].
Defined.

Lemma other_keys_untouched_witness :
  (∀ depth v b t',
     int_insert depth 3 v (mkTable [live 2 "two"; live 1 "one"] 2 2) = Ret (b, t') →
     ∃ r, int_find 1 (mkTable [live 2 "two"; live 1 "one"] 2 2)
          = Ret (r, mkTable [live 2 "two"; live 1 "one"] 2 2) ∧
          int_find 1 t' = Ret (r, t')) ∧
  (∀ b t',
     int_remove 3 (mkTable [live 2 "two"; live 1 "one"] 2 2) = Ret (b, t') →
     ∃ r, int_find 1 (mkTable [live 2 "two"; live 1 "one"] 2 2)
          = Ret (r, mkTable [live 2 "two"; live 1 "one"] 2 2) ∧
          int_find 1 t' = Ret (r, t')).
Proof.
  apply (other_keys_untouched std_hash_int false false (λ _ : nat, false)
           (mkTable [live 2 "two"; live 1 "one"] 2 2) 3 1).
  - apply (reachable_run_new _ _ _ _ 2 0 [Insert 1 "one"; Insert 2 "two"]); [lia | reflexivity].
  - lia.
Defined.

Lemma capacity_is_initial_times_power_of_two_witness :
  (∃ j, table_size (mkTable [None; live 1 "one"; live 2 "two"; live 3 "three"] 4 3)
        = 2 * 2 ^ j) ∧
  length (table (mkTable [None; live 1 "one"; live 2 "two"; live 3 "three"] 4 3))
  = table_size (mkTable [None; live 1 "one"; live 2 "two"; live 3 "three"] 4 3) ∧
  ∀ depth' o t',
    int_step depth' o (mkTable [None; live 1 "one"; live 2 "two"; live 3 "three"] 4 3)
    = Ret t' →
    table_size t' = table_size (mkTable [None; live 1 "one"; live 2 "two"; live 3 "three"] 4 3) ∨
    (table_size t'
     = table_size (mkTable [None; live 1 "one"; live 2 "two"; live 3 "three"] 4 3) * 2 ∧
     ∃ k v, o = Insert k v).
Proof.
  apply (capacity_is_initial_times_power_of_two std_hash_int false false (λ _ : nat, false)
           2 0 [Insert 1 "one"; Insert 2 "two"; Insert 3 "three"]); [lia | reflexivity].
Defined.

Lemma load_factor_bound_witness :
  item_count (mkTable [live 2 "two"; live 1 "one"] 2 2) * 2
  ≤ table_size (mkTable [live 2 "two"; live 1 "one"] 2 2) + 2 ∧
  ∀ t1, int_resize (mkTable [live 2 "two"; live 1 "one"] 2 2) = Ret t1 →
        item_count t1 * 2 ≤ table_size t1.
Proof.
  apply (load_factor_bound std_hash_int false false (λ _ : nat, false)
           (mkTable [live 2 "two"; live 1 "one"] 2 2)).
  apply (reachable_run_new _ _ _ _ 2 0 [Insert 1 "one"; Insert 2 "two"]); [lia | reflexivity].
Defined.

Lemma insert_remove_round_trip_witness :
  ∃ t2, int_remove 1 (mkTable [None; live 1 "one"; None; None] 4 1) = Ret (true, t2) ∧
        fst (size (mkTable [None; live 1 "one"; None; None] 4 1)) = S (fst (size (int_new 4))) ∧
        fst (size t2) = fst (size (int_new 4)) ∧
        (∀ k', ∃ r, int_find k' (new 4) = Ret (r, new 4) ∧ int_find k' t2 = Ret (r, t2)) ∧
        ∃ t0 i, int_resize (new 4) = Ret t0 ∧ table t0 !! i = Some None ∧
                table t2 = <[i := tombstone 1 "one"]> (table t0) ∧
                table_size t2 = table_size t0.
Proof.
  apply (insert_remove_round_trip std_hash_int false false (λ _ : nat, false)
           (new 4) 0 1 "one").
  - apply reachable_new. lia.
  - apply new_has_no_key.
  - reflexivity.
Defined.

Lemma remove_twice_witness :
  int_remove 1 (mkTable [None; tombstone 1 "one"; None; None] 4 0)
  = Ret (false, mkTable [None; tombstone 1 "one"; None; None] 4 0).
Proof.
  apply (remove_twice std_hash_int false false (λ _ : nat, false)
           (mkTable [None; live 1 "one"; None; None] 4 1) 1 true).
  - apply (reachable_run_new _ _ _ _ 4 0 [Insert 1 "one"]); [lia | reflexivity].
  - reflexivity.
Defined.

Lemma remove_agrees_with_find_witness :
  ∃ r b t',
    int_find 1 (mkTable [None; live 1 "one"; None; None] 4 1)
    = Ret (r, mkTable [None; live 1 "one"; None; None] 4 1) ∧
    int_remove 1 (mkTable [None; live 1 "one"; None; None] 4 1) = Ret (b, t') ∧
    (b = true ↔ is_Some r) ∧
    (∀ v, r = Some v →
       ∃ i, [None; live 1 "one"; None; None] !! i = Some (live 1 v) ∧
            table t' = <[i := tombstone 1 v]> [None; live 1 "one"; None; None]).
Proof.
  apply (remove_agrees_with_find std_hash_int false false (λ _ : nat, false)
           (mkTable [None; live 1 "one"; None; None] 4 1) 1).
  apply (reachable_run_new _ _ _ _ 4 0 [Insert 1 "one"]); [lia | reflexivity].
Defined.

Lemma fresh_table_is_empty_witness :
  int_find 7 (new 16) = Ret (None, new 16) ∧
  int_remove 7 (new 16) = Ret (false, new 16) ∧
  fst (size (int_new 16)) = 0.
Proof.
  apply (fresh_table_is_empty std_hash_int false false (λ _ : nat, false) 16 7). lia.
Defined.

Lemma resize_idempotent_witness :
  int_resize (mkTable [None; live 1 "one"; live 2 "two"; None] 4 2)
  = Ret (mkTable [None; live 1 "one"; live 2 "two"; None] 4 2) ∧
  ∀ depth k v, int_check_key k = true →
    int_insert depth k v (mkTable [None; live 1 "one"; live 2 "two"; None] 4 2)
    = int_insert depth k v (mkTable [live 2 "two"; live 1 "one"] 2 2).
Proof.
  apply (resize_idempotent std_hash_int false false (λ _ : nat, false)
           (mkTable [live 2 "two"; live 1 "one"] 2 2)).
  - apply (reachable_run_new _ _ _ _ 2 0 [Insert 1 "one"; Insert 2 "two"]); [lia | reflexivity].
  - reflexivity.
Defined.

Lemma churn_then_insert_never_returns_witness :
  ∃ t, int_run 0 (churn 1 "one" 3) (new 3) = Ret t ∧
       fst (size t) = 0 ∧ table_size t = 3 ∧
       (∀ i, i < 3 → is_tombstone <$> table t !! i = Some true) ∧
       ∀ depth' k' v', int_check_key k' = true → int_insert depth' k' v' t = Diverge.
Proof.
  apply (churn_then_insert_never_returns std_hash_int false false (λ _ : nat, false)
           3 0 1 "one"); [lia | reflexivity].
Defined.

Lemma insert_size_effect_witness :
  ((int_find 3 (mkTable [live 2 "two"; live 1 "one"] 2 2)
    = Ret (None, mkTable [live 2 "two"; live 1 "one"] 2 2) ∧
    fst (size (mkTable [None; live 1 "one"; live 2 "two"; live 3 "three"] 4 3))
    = S (fst (size (mkTable [live 2 "two"; live 1 "one"] 2 2)))) ∨
   ((∃ v0, int_find 3 (mkTable [live 2 "two"; live 1 "one"] 2 2)
           = Ret (Some v0, mkTable [live 2 "two"; live 1 "one"] 2 2)) ∧
    fst (size (mkTable [None; live 1 "one"; live 2 "two"; live 3 "three"] 4 3))
    = fst (size (mkTable [live 2 "two"; live 1 "one"] 2 2)))) ∧
  table_size (mkTable [None; live 1 "one"; live 2 "two"; live 3 "three"] 4 3)
  = (if 2 <? 2 * 2 then 2 * 2 else 2).
Proof.
  apply (insert_size_effect std_hash_int false false (λ _ : nat, false)
           (mkTable [live 2 "two"; live 1 "one"] 2 2) 0 3 "three").
  - apply (reachable_run_new _ _ _ _ 2 0 [Insert 1 "one"; Insert 2 "two"]); [lia | reflexivity].
  - reflexivity.
Defined.

Lemma distinct_inserts_size_and_capacity_witness :
  ∃ t, int_run 0 (insert_ops [(1, "one"); (2, "two"); (3, "three")]) (new 2) = Ret t ∧
       fst (size t) = 3 ∧
       table_size t = grow 2 0 3.
Proof.
  apply (distinct_inserts_size_and_capacity std_hash_int false false (λ _ : nat, false) 2 0
           [(1, "one"); (2, "two"); (3, "three")]).
  - lia.
  - simpl. apply (@bool_decide_unpack _ (NoDup_dec _)). done.
  - reflexivity.
Defined.

End HashTable.


(** * The test driver

    The sequential test functions of [src/ConsoleApplication2.cpp] on
    [CustomHashTable<int, std::string>], with [assert] compiled in.  A test
    returns [true] with the table it leaves when every assertion held, and
    [false] with the table at the first assertion that failed.
    [std::hash<int>], which the standard leaves to the implementation, and
    [std::to_string] are parameters.  [Key] is [int], so [check_key] tests
    nothing. *)

Module TestDriver.
Import HashTable.
Section tests.

Variable hashf : Z → nat.
Variable to_string : Z → string.

Local Open Scope string_scope.
Local Open Scope nat_scope.

Abbreviation Table := (CustomHashTable (K:=Z) (V:=string)).
Abbreviation hashTable_insert := (insert (V:=string) hashf false false (λ _ : Z, false)).
Abbreviation hashTable_find := (find (V:=string) hashf false false (λ _ : Z, false)).
Abbreviation hashTable_remove := (remove (V:=string) hashf false false (λ _ : Z, false)).

(** [assert(cond);] followed by [rest] *)
Definition assert_ (cond : bool) (hashTable : Table) (rest : res (bool * Table))
    : res (bool * Table) :=
  if cond then rest else Ret (false, hashTable).

Definition testDuplicateInsertions (depth : nat) : res (bool * Table) :=
  let hashTable := new 4 in
  '(ok, hashTable) ← hashTable_insert depth 1%Z "one" hashTable;
  assert_ ok hashTable (
  '(ok, hashTable) ← hashTable_insert depth 1%Z "updated_one" hashTable;
  assert_ ok hashTable (
  '(result, hashTable) ← hashTable_find 1%Z hashTable;
  assert_ (bool_decide (result = Some "updated_one")) hashTable (
  Ret (true, hashTable)))).

Definition testRemoveNonExistentKey : res (bool * Table) :=
  let hashTable := new 4 in
  '(removed, hashTable) ← hashTable_remove 1%Z hashTable;
  assert_ (negb removed) hashTable (
  Ret (true, hashTable)).

Definition testTableResizing (depth : nat) : res (bool * Table) :=
  let hashTable := new 2 in
  '(ok, hashTable) ← hashTable_insert depth 1%Z "one" hashTable;
  assert_ ok hashTable (
  '(ok, hashTable) ← hashTable_insert depth 2%Z "two" hashTable;
  assert_ ok hashTable (
  '(ok, hashTable) ← hashTable_insert depth 3%Z "three" hashTable;
  assert_ ok hashTable (
  '(result, hashTable) ← hashTable_find 1%Z hashTable;
  assert_ (bool_decide (result = Some "one")) hashTable (
  '(result, hashTable) ← hashTable_find 2%Z hashTable;
  assert_ (bool_decide (result = Some "two")) hashTable (
  '(result, hashTable) ← hashTable_find 3%Z hashTable;
  assert_ (bool_decide (result = Some "three")) hashTable (
  Ret (true, hashTable))))))).

Definition testEmptyTableOperations : res (bool * Table) :=
  let hashTable := new 4 in
  '(result, hashTable) ← hashTable_find 1%Z hashTable;
  assert_ (bool_decide (result = None)) hashTable (
  '(removed, hashTable) ← hashTable_remove 1%Z hashTable;
  assert_ (negb removed) hashTable (
  Ret (true, hashTable))).

(** ["value_" + std::to_string(i)] *)
Definition value_ (i : Z) : string := "value_" +:+ to_string i.

(** [for (...) assert(hashTable.insert(i, "value_" + std::to_string(i)));]
    over the values [indices] of [i] *)
Fixpoint insert_values (depth : nat) (indices : list Z) (hashTable : Table)
    : res (bool * Table) :=
  match indices with
  | [] => Ret (true, hashTable)
  | i :: indices' =>
      '(ok, hashTable) ← hashTable_insert depth i (value_ i) hashTable;
      assert_ ok hashTable (insert_values depth indices' hashTable)
  end.

(** [for (...) assert(hashTable.find(i, result) && result == "value_" + std::to_string(i));] *)
Fixpoint find_values (indices : list Z) (hashTable : Table) : res (bool * Table) :=
  match indices with
  | [] => Ret (true, hashTable)
  | i :: indices' =>
      '(result, hashTable) ← hashTable_find i hashTable;
      assert_ (bool_decide (result = Some (value_ i))) hashTable
              (find_values indices' hashTable)
  end.

Definition testLargeNumberOfInsertsAndFinds (depth : nat) : res (bool * Table) :=
  let hashTable := new 16 in
  '(ok, hashTable) ← insert_values depth (seqZ 0 1000) hashTable;
  assert_ ok hashTable (find_values (seqZ 0 1000) hashTable).

Definition testSingleEntry (depth : nat) : res (bool * Table) :=
  let hashTable := new 4 in
  '(ok, hashTable) ← hashTable_insert depth 1%Z "one" hashTable;
  assert_ ok hashTable (
  '(removed, hashTable) ← hashTable_remove 1%Z hashTable;
  assert_ removed hashTable (
  '(result, hashTable) ← hashTable_find 1%Z hashTable;
  assert_ (bool_decide (result = None)) hashTable (
  Ret (true, hashTable)))).

(** The local [struct CustomHash] of the source is not used: the table
    hashes with [std::hash<int>]. *)
Definition testCustomHashFunction (depth : nat) : res (bool * Table) :=
  let hashTable := new 4 in
  '(ok, hashTable) ← hashTable_insert depth 1%Z "one" hashTable;
  assert_ ok hashTable (
  '(ok, hashTable) ← hashTable_insert depth 2%Z "two" hashTable;
  assert_ ok hashTable (
  '(ok, hashTable) ← hashTable_insert depth 3%Z "three" hashTable;
  assert_ ok hashTable (
  '(result, hashTable) ← hashTable_find 1%Z hashTable;
  assert_ (bool_decide (result = Some "one")) hashTable (
  '(result, hashTable) ← hashTable_find 2%Z hashTable;
  assert_ (bool_decide (result = Some "two")) hashTable (
  '(result, hashTable) ← hashTable_find 3%Z hashTable;
  assert_ (bool_decide (result = Some "three")) hashTable (
  Ret (true, hashTable))))))).


Abbreviation is_consistent := (Consistent hashf false false (λ _ : Z, false)).
Abbreviation hashTable_run := (run (V:=string) hashf false false (λ _ : Z, false)).

Lemma hashTable_insert_ok (depth : nat) (k : Z) (v : string) (t : Table) :
  is_consistent t → no_tombstone (table t) →
  ∃ t', hashTable_insert depth k v t = Ret (true, t') ∧
        is_consistent t' ∧ no_tombstone (table t') ∧
        (∀ k' v', maps_to t' k' v' ↔ (k' = k ∧ v' = v) ∨ (k' ≠ k ∧ maps_to t k' v')) ∧
        ((has_key t k ∧ item_count t' = item_count t) ∨
         (¬ has_key t k ∧ item_count t' = S (item_count t))).
Proof.
  intros Hcons Hno.
  destruct (insert_ok hashf false false (λ _ : Z, false) depth k v t Hcons Hno eq_refl)
    as (t' & Hins & Hcons' & Hno' & Hmap & Hcount & _).
  exists t'. done.
Qed.

Lemma hashTable_find_last_write (depth : nat) (kvs : list (Z * string)) (n : nat)
    (t : Table) (k : Z) (v : string) :
  0 < n → hashTable_run depth (insert_ops kvs) (new n) = Ret t →
  last_write false false (λ _ : Z, false) kvs k = Some v →
  hashTable_find k t = Ret (Some v, t).
Proof.
  intros Hpos Hrun Hlw.
  destruct (run_insert_ops hashf false false (λ _ : Z, false) depth kvs (new n))
    as (t' & Hrun' & Hcons & _ & Hmap); [by apply new_Consistent | apply new_no_tombstone |].
  rewrite Hrun in Hrun'. injection Hrun' as <-.
  apply find_of_maps_to; [done|]. apply Hmap. by left.
Qed.

Lemma hashTable_size_distinct (depth : nat) (kvs : list (Z * string)) (n : nat) (t : Table) :
  0 < n → hashTable_run depth (insert_ops kvs) (new n) = Ret t → NoDup kvs.*1 →
  fst (size t) = length kvs ∧ table_size t = grow n 0 (length kvs).
Proof.
  intros Hpos Hrun Hnodup.
  destruct (run_fresh_inserts hashf false false (λ _ : Z, false) depth kvs (new n))
    as (t' & Hrun' & Hc & Hs);
    [by apply new_Consistent | apply new_no_tombstone | done | |].
  { intros k _. split; [done | apply new_has_no_key]. }
  rewrite Hrun in Hrun'. injection Hrun' as <-. done.
Qed.

(** Three inserts of the keys 1, 2, 3 and the three finds, at any capacity. *)
Lemma three_inserts_three_finds (n depth : nat) :
  0 < n →
  ∃ hashTable,
    ('(ok, hashTable) ← hashTable_insert depth 1%Z "one" (new n);
     assert_ ok hashTable (
     '(ok, hashTable) ← hashTable_insert depth 2%Z "two" hashTable;
     assert_ ok hashTable (
     '(ok, hashTable) ← hashTable_insert depth 3%Z "three" hashTable;
     assert_ ok hashTable (
     '(result, hashTable) ← hashTable_find 1%Z hashTable;
     assert_ (bool_decide (result = Some "one")) hashTable (
     '(result, hashTable) ← hashTable_find 2%Z hashTable;
     assert_ (bool_decide (result = Some "two")) hashTable (
     '(result, hashTable) ← hashTable_find 3%Z hashTable;
     assert_ (bool_decide (result = Some "three")) hashTable (
     Ret (true, hashTable))))))))
    = Ret (true, hashTable) ∧
    fst (size hashTable) = 3 ∧ table_size hashTable = grow n 0 3.
Proof.
  intros Hpos.
  destruct (hashTable_insert_ok depth 1%Z "one" (new n)) as (t1 & Hi1 & Hc1 & Hn1 & _);
    [by apply new_Consistent | apply new_no_tombstone |].
  destruct (hashTable_insert_ok depth 2%Z "two" t1 Hc1 Hn1) as (t2 & Hi2 & Hc2 & Hn2 & _).
  destruct (hashTable_insert_ok depth 3%Z "three" t2 Hc2 Hn2) as (t3 & Hi3 & Hc3 & Hn3 & _).
  assert (hashTable_run depth (insert_ops [(1%Z, "one"); (2%Z, "two"); (3%Z, "three")]) (new n)
          = Ret t3) as Hrun.
  { simpl. rewrite Hi1. simpl. rewrite Hi2. simpl. by rewrite Hi3. }
  exists t3. rewrite Hi1. simpl. rewrite Hi2. simpl. rewrite Hi3. simpl.
  rewrite (hashTable_find_last_write depth _ n t3 1%Z "one" Hpos Hrun eq_refl). simpl.
  rewrite (hashTable_find_last_write depth _ n t3 2%Z "two" Hpos Hrun eq_refl). simpl.
  rewrite (hashTable_find_last_write depth _ n t3 3%Z "three" Hpos Hrun eq_refl). simpl.
  split; [done|]. apply (hashTable_size_distinct depth _ n t3 Hpos Hrun).
  simpl. apply (@bool_decide_unpack _ (NoDup_dec _)). done.
Qed.


(** X16: whatever [std::hash<int>] is, every assertion of
    [testDuplicateInsertions], [testTableResizing] and
    [testCustomHashFunction] holds; the tables they leave hold 1, 3 and 3
    keys, and the one of [testTableResizing] has grown from capacity 2 to 4
    while the one of [testCustomHashFunction] still has capacity 4. *)
Theorem insert_find_tests_pass (depth : nat) :
  (∃ hashTable, testDuplicateInsertions depth = Ret (true, hashTable) ∧
                fst (size hashTable) = 1 ∧ table_size hashTable = 4) ∧
  (∃ hashTable, testTableResizing depth = Ret (true, hashTable) ∧
                fst (size hashTable) = 3 ∧ table_size hashTable = 4) ∧
  (∃ hashTable, testCustomHashFunction depth = Ret (true, hashTable) ∧
                fst (size hashTable) = 3 ∧ table_size hashTable = 4).
Proof.
  split_and!.
  - destruct (hashTable_insert_ok depth 1%Z "one" (new 4))
      as (t1 & Hi1 & Hc1 & Hn1 & Hm1 & Hk1);
      [apply new_Consistent; lia | apply new_no_tombstone |].
    destruct (hashTable_insert_ok depth 1%Z "updated_one" t1 Hc1 Hn1)
      as (t2 & Hi2 & Hc2 & Hn2 & Hm2 & Hk2).
    assert (hashTable_run depth (insert_ops [(1%Z, "one"); (1%Z, "updated_one")]) (new 4)
            = Ret t2) as Hrun.
    { simpl. rewrite Hi1. simpl. by rewrite Hi2. }
    exists t2. unfold testDuplicateInsertions. rewrite Hi1. simpl. rewrite Hi2. simpl.
    rewrite (hashTable_find_last_write depth _ 4 t2 1%Z "updated_one" ltac:(lia) Hrun eq_refl).
    simpl. split; [done|].
    destruct Hk1 as [[Hhas _]|[_ Hk1]]; [by apply new_has_no_key in Hhas|].
    destruct Hk2 as [[_ Hk2]|[Hno _]].
    + simpl. rewrite Hk2, Hk1.
      pose proof (insert_table_size hashf false false (λ _ : Z, false) depth 1%Z "one"
                    (new 4) t1 true) as Hs1.
      pose proof (insert_table_size hashf false false (λ _ : Z, false) depth 1%Z
                    "updated_one" t1 t2 true (cons_inv _ _ _ _ t1 Hc1) eq_refl Hi2) as Hs2.
      rewrite Hs2, Hk1, Hs1; [done | apply new_Inv; lia | done | done].
    + exfalso. apply Hno. exists "one". apply Hm1. by left.
  - apply (three_inserts_three_finds 2 depth). lia.
  - apply (three_inserts_three_finds 4 depth). lia.
Qed.

(** X17: whatever [std::hash<int>] is, every assertion of
    [testRemoveNonExistentKey], [testEmptyTableOperations] and
    [testSingleEntry] holds; the first two leave the table as constructed,
    the third leaves an empty table. *)
Theorem remove_tests_pass (depth : nat) :
  testRemoveNonExistentKey = Ret (true, new 4) ∧
  testEmptyTableOperations = Ret (true, new 4) ∧
  ∃ hashTable, testSingleEntry depth = Ret (true, hashTable) ∧
               fst (size hashTable) = 0 ∧
               ∀ k, hashTable_find k hashTable = Ret (None, hashTable).
Proof.
  destruct (new_find_remove hashf false false (λ _ : Z, false) (V:=string) 4 1%Z)
    as [Hfind Hrem]; [lia|].
  split_and!.
  - unfold testRemoveNonExistentKey. by rewrite Hrem.
  - unfold testEmptyTableOperations. rewrite Hfind. simpl. by rewrite Hrem.
  - destruct (hashTable_insert_ok depth 1%Z "one" (new 4))
      as (t1 & Hi1 & Hc1 & Hn1 & Hm1 & Hk1);
      [apply new_Consistent; lia | apply new_no_tombstone |].
    destruct Hk1 as [[Hhas _]|[_ Hk1]]; [by apply new_has_no_key in Hhas|].
    destruct (remove_spec hashf false false (λ _ : Z, false) 1%Z t1 Hc1)
      as [[Hno _]|(i & e & Hie & Hke & Hrem1)].
    { exfalso. apply Hno. exists "one". apply Hm1. by left. }
    pose proof (tombstone_Consistent _ _ _ _ t1 i e Hc1 Hie) as Hc2.
    pose proof (tombstone_maps_to _ _ _ _ t1 i e Hc1 Hie) as Hm2.
    assert (∀ k, ¬ has_key (mkTable (<[i := Some (mkEntry (key e) (value e) false)]> (table t1))
                                    (table_size t1) (pred (item_count t1))) k) as Hempty.
    { intros k [v Hv]. apply Hm2 in Hv as [Hne Hv]. apply Hm1 in Hv as [[-> _]|[_ Hv]].
      - congruence.
      - apply (new_has_no_key (V:=string) 4 k). by exists v. }
    eexists. unfold testSingleEntry. rewrite Hi1. simpl. rewrite Hrem1. simpl.
    rewrite (find_of_no_key _ _ _ _ _ 1%Z Hc2 (Hempty 1%Z)). simpl.
    split; [done|]. split; [by rewrite Hk1|].
    intros k. by apply find_of_no_key.
Qed.

Lemma insert_values_ok (depth : nat) (indices : list Z) (t0 : Table) :
  is_consistent t0 → no_tombstone (table t0) →
  ∃ t, insert_values depth indices t0 = Ret (true, t) ∧
       hashTable_run depth (insert_ops ((λ i, (i, value_ i)) <$> indices)) t0 = Ret t.
Proof.
  revert t0. induction indices as [|i indices IH]; intros t0 Hcons Hno.
  - by exists t0.
  - destruct (hashTable_insert_ok depth i (value_ i) t0 Hcons Hno)
      as (t1 & Hi1 & Hc1 & Hn1 & _).
    destruct (IH t1 Hc1 Hn1) as (t & Hvals & Hrun).
    exists t. split.
    + simpl. rewrite Hi1. simpl. exact Hvals.
    + rewrite fmap_cons. simpl. rewrite Hi1. simpl. exact Hrun.
Qed.

Lemma find_values_ok (indices : list Z) (t : Table) :
  (∀ i, i ∈ indices → hashTable_find i t = Ret (Some (value_ i), t)) →
  find_values indices t = Ret (true, t).
Proof.
  induction indices as [|i indices IH]; intros Hfind; [done|].
  simpl. rewrite (Hfind i) by (by left). simpl.
  rewrite bool_decide_eq_true_2 by done. simpl.
  apply IH. intros j Hj. apply Hfind. by right.
Qed.

(** X18: whatever [std::hash<int>] and [std::to_string] are, every one of
    the 2000 assertions of [testLargeNumberOfInsertsAndFinds] holds; the
    table it leaves holds 1000 keys and has grown from capacity 16 to
    2048. *)
Theorem large_test_passes (depth : nat) :
  ∃ hashTable, testLargeNumberOfInsertsAndFinds depth = Ret (true, hashTable) ∧
               fst (size hashTable) = 1000 ∧ table_size hashTable = 2048.
Proof.
  destruct (insert_values_ok depth (seqZ 0 1000) (new 16)) as (t & Hvals & Hrun);
    [apply new_Consistent; lia | apply new_no_tombstone |].
  assert (((λ i, (i, value_ i)) <$> seqZ 0 1000).*1 = seqZ 0 1000) as Hkeys.
  { rewrite <- list_fmap_compose. apply list_fmap_id. }
  exists t. split.
  - unfold testLargeNumberOfInsertsAndFinds. rewrite Hvals.
    change (find_values (seqZ 0 1000) t = Ret (true, t)).
    apply find_values_ok. intros i Hi.
    apply (hashTable_find_last_write depth _ 16 t i (value_ i) ltac:(lia) Hrun).
    by apply last_write_same_value.
  - destruct (hashTable_size_distinct depth _ 16 t ltac:(lia) Hrun) as [Hsize Hcap].
    + rewrite Hkeys. apply NoDup_seqZ.
    + rewrite length_fmap, length_seqZ in Hsize, Hcap. split; [exact Hsize|].
      rewrite Hcap. vm_compute. reflexivity.
Qed.

End tests.
End TestDriver.
